(** * FeoBlog web client: common.ts

    A shallow embedding of [web-client/ts/common.ts] and the properties of
    its helpers: the bounded prefetch generator, the user-ID parser, the
    server-URL validator and the task tracker. *)

From Stdlib Require Import Ascii String.
From Stdlib Require Import List ZArith Lia Bool Arith.
Import ListNotations.

Set Implicit Arguments.

(** ** The prefetch generator (common.ts, lines 59-80) *)

Module Prefetch.

Section Generator.

(** [T] is the element type of the source, [Out] the type of transformed
    values, [Err] the type of rejection reasons. *)
Variables T Out Err : Type.

(** How a promise settles. *)
Inductive outcome :=
| Fulfilled (v : Out)
| Rejected (e : Err).

(** A [Promise<Out>]: it settles [latency] ticks after its creation, with
    [result].  The generator never inspects [latency]: it only awaits. *)
Record Promise := { latency : nat; result : outcome }.

(** The transform [asyncFilter : (t: T) => Promise<Out>]. *)
Variable asyncFilter : T -> Promise.

(** The bound [count].  The source compares [outs.length > count], so the
    sign of [count] matters: it is an integer here. *)
Variable count : Z.

(** Which of the two [while] loops a [yield] belongs to. *)
Inductive loop :=
| InFor      (* lines 66-68, inside [for await] *)
| AfterFor.  (* lines 71-73, after the source is exhausted *)

(** The control points at which the generator can be observed. *)
Inductive control :=
| AtFor                                  (* line 64: pull the next item *)
| AtWhile (l : loop)                     (* lines 66 / 71: loop test *)
| AtYield (l : loop) (p : option Promise)(* lines 67 / 72: the shifted value is awaited *)
| Returned                               (* line 74: normal completion *)
| Threw (e : Err).                       (* a rejection left the generator *)

(** [items] is what remains of the source, [outs] the array of line 62. *)
Record state := { items : list T; outs : list Promise; ctl : control }.

(** What the outside world sees.  [Yield None] is a yielded [undefined]:
    [outs.shift()] on an empty array, let through by [assertExists]. *)
Inductive event :=
| Submit (t : T)
| Yield (v : option Out)
| Raise (e : Err).

Definition init (src : list T) : state :=
  {| items := src; outs := []; ctl := AtFor |}.

(** [outs.shift()]: the removed head (or [undefined]) and the rest. *)
Definition shift (a : list Promise) : option Promise * list Promise :=
  match a with
  | [] => (None, [])
  | p :: a' => (Some p, a')
  end.

(** The loop tests of lines 66 and 71. *)
Definition loop_test (l : loop) (a : list Promise) : bool :=
  match l with
  | InFor => (count <? Z.of_nat (length a))%Z
  | AfterFor => (0 <? Z.of_nat (length a))%Z
  end.

(** Where control goes when a loop test fails. *)
Definition loop_exit (l : loop) : control :=
  match l with
  | InFor => AtFor
  | AfterFor => Returned
  end.

(** One transition of the generator. *)
Definition step (st : state) : option event * state :=
  match ctl st with
  | AtFor =>
      match items st with
      | [] => (None, {| items := []; outs := outs st; ctl := AtWhile AfterFor |})
      | item :: rest =>
          (Some (Submit item),
           {| items := rest;
              outs := outs st ++ [asyncFilter item];
              ctl := AtWhile InFor |})
      end
  | AtWhile l =>
      if loop_test l (outs st) then
        let (p, a) := shift (outs st) in
        (None, {| items := items st; outs := a; ctl := AtYield l p |})
      else
        (None, {| items := items st; outs := outs st; ctl := loop_exit l |})
  | AtYield l None =>
      (Some (Yield None),
       {| items := items st; outs := outs st; ctl := AtWhile l |})
  | AtYield l (Some p) =>
      match result p with
      | Fulfilled v =>
          (Some (Yield (Some v)),
           {| items := items st; outs := outs st; ctl := AtWhile l |})
      | Rejected e =>
          (Some (Raise e),
           {| items := items st; outs := outs st; ctl := Threw e |})
      end
  | Returned => (None, st)
  | Threw _ => (None, st)
  end.

Definition emit (e : option event) (es : list event) : list event :=
  match e with
  | Some x => x :: es
  | None => es
  end.

(** A consumer that keeps asking: [n] transitions from [st]. *)
Fixpoint run (n : nat) (st : state) : list event * state :=
  match n with
  | O => ([], st)
  | S n' =>
      let (e, st1) := step st in
      let (es, st2) := run n' st1 in
      (emit e es, st2)
  end.

Definition terminated (st : state) : bool :=
  match ctl st with
  | Returned | Threw _ => true
  | _ => false
  end.

(** Enough transitions for any source of that length when [0 <= count]. *)
Definition fuel (src : list T) : nat := 4 * length src + 2.

(** [prefetch(items, count, asyncFilter)], iterated to its end. *)
Definition prefetch (src : list T) : list event * state :=
  run (fuel src) (init src).

(** Projections of a trace. *)
Fixpoint submitted (es : list event) : list T :=
  match es with
  | [] => []
  | Submit t :: es' => t :: submitted es'
  | _ :: es' => submitted es'
  end.

Fixpoint yielded (es : list event) : list (option Out) :=
  match es with
  | [] => []
  | Yield v :: es' => v :: yielded es'
  | _ :: es' => yielded es'
  end.

Fixpoint raised (es : list event) : list Err :=
  match es with
  | [] => []
  | Raise e :: es' => e :: raised es'
  | _ :: es' => raised es'
  end.

(** Transforms submitted whose result has not reached the consumer: the
    window, and the promise being awaited at a [yield]. *)
Definition pending (st : state) : nat :=
  length (outs st) +
  match ctl st with
  | AtYield _ (Some _) => 1
  | _ => 0
  end.

(** The naive sequential loop:
    [for await (let item of items) { yield await asyncFilter(item) }]. *)
Fixpoint sequential (src : list T) : list event :=
  match src with
  | [] => []
  | item :: rest =>
      Submit item ::
      match result (asyncFilter item) with
      | Fulfilled v => Yield (Some v) :: sequential rest
      | Rejected e => [Raise e]
      end
  end.

(** What the consumer receives: every event but the submissions. *)
Fixpoint observed (es : list event) : list event :=
  match es with
  | [] => []
  | Submit _ :: es' => observed es'
  | e :: es' => e :: observed es'
  end.

(** Awaiting promises one after the other, oldest first, until one of
    them rejects. *)
Fixpoint expected (w : list Promise) : list event :=
  match w with
  | [] => []
  | p :: w' =>
      match result p with
      | Fulfilled v => Yield (Some v) :: expected w'
      | Rejected e => [Raise e]
      end
  end.

(** How many promises at the front of [w] are fulfilled. *)
Fixpoint fulfilled_prefix (w : list Promise) : nat :=
  match w with
  | [] => 0
  | p :: w' =>
      match result p with
      | Fulfilled _ => S (fulfilled_prefix w')
      | Rejected _ => 0
      end
  end.

(** How the generator ends when it awaits [w] in order. *)
Fixpoint final_ctl (w : list Promise) : control :=
  match w with
  | [] => Returned
  | p :: w' =>
      match result p with
      | Fulfilled _ => final_ctl w'
      | Rejected e => Threw e
      end
  end.

(** The size of the window allowed at each control point. *)
Definition within_bound (st : state) : Prop :=
  match ctl st with
  | AtFor => (Z.of_nat (length (outs st)) <= count)%Z
  | AtWhile InFor => (Z.of_nat (length (outs st)) <= count + 1)%Z
  | AtYield InFor p =>
      p <> None /\ (Z.of_nat (length (outs st)) <= count)%Z
  | AtWhile AfterFor => (Z.of_nat (length (outs st)) <= count)%Z
  | AtYield AfterFor p =>
      p <> None /\ (Z.of_nat (length (outs st)) + 1 <= count)%Z
  | Returned => outs st = []
  | Threw _ => (Z.of_nat (length (outs st)) <= count)%Z
  end.

(** Two control points that differ at most in the latency of the promise
    being awaited. *)
Definition same_ctl (c1 c2 : control) : Prop :=
  match c1, c2 with
  | AtFor, AtFor => True
  | AtWhile l1, AtWhile l2 => l1 = l2
  | AtYield l1 p1, AtYield l2 p2 =>
      l1 = l2 /\ option_map result p1 = option_map result p2
  | Returned, Returned => True
  | Threw e1, Threw e2 => e1 = e2
  | _, _ => False
  end.

(** Two states that differ at most in the latencies of their promises. *)
Definition same_results (s1 s2 : state) : Prop :=
  items s1 = items s2 /\
  map result (outs s1) = map result (outs s2) /\
  same_ctl (ctl s1) (ctl s2).

(** What holds when a result is awaited inside the [for await] loop (the
    window is exactly as large as the bound allows) and once the source is
    exhausted (nothing is left of it). *)
Definition at_depth (st : state) : Prop :=
  match ctl st with
  | AtYield InFor _ => Z.of_nat (length (outs st)) = count
  | AtWhile AfterFor => items st = []
  | AtYield AfterFor _ => items st = []
  | _ => True
  end.

End Generator.

Arguments Fulfilled {Out Err} v.
Arguments Rejected {Out Err} e.
Arguments AtFor {Out Err}.
Arguments AtWhile {Out Err} l.
Arguments AtYield {Out Err} l p.
Arguments Returned {Out Err}.
Arguments Threw {Out Err} e.
Arguments Submit {T Out Err} t.
Arguments Yield {T Out Err} v.
Arguments Raise {T Out Err} e.
Arguments init {T Out Err} src.
Arguments expected {T Out Err} w.

(** An integer transform used in the examples: squares its argument, and
    rejects on [bad] with that number as the reason.  Small arguments take
    longest to settle. *)
Definition square_unless (bad : Z) (x : Z) : Promise Z Z :=
  {| latency := Z.to_nat (10 - x);
     result := if (x =? bad)%Z then Rejected x else Fulfilled (x * x)%Z |}.

End Prefetch.

(** ** Thrown values and results *)

(** A function that either returns or throws a string (the source throws
    plain strings, lines 17-36). *)
Inductive completion (A : Type) :=
| Return (a : A)
| Throw (msg : string).

Arguments Return {A} a.
Arguments Throw {A} msg.

(** ** User IDs (common.ts, lines 8-49) *)

(** [bs58] is an npm dependency of the client.  What [parseUserID] needs of
    it is that [bs58.decode] either returns bytes or throws. *)
Module Base58.

(** The Bitcoin alphabet used by [bs58]. *)
Definition ALPHABET : list ascii :=
  list_ascii_of_string
    "123456789ABCDEFGHJKLMNPQRSTUVWXYZabcdefghijkmnopqrstuvwxyz".

Fixpoint index_of (c : ascii) (l : list ascii) : option N :=
  match l with
  | [] => None
  | x :: l' =>
      if Ascii.eqb c x then Some 0%N
      else option_map N.succ (index_of c l')
  end.

Definition digit (c : ascii) : option N := index_of c ALPHABET.

(** The digits of a text, or [None] at the first foreign character. *)
Fixpoint digits (l : list ascii) : option (list N) :=
  match l with
  | [] => Some []
  | c :: l' =>
      match digit c, digits l' with
      | Some d, Some ds => Some (d :: ds)
      | _, _ => None
      end
  end.

Fixpoint leading_zeros (ds : list N) : nat :=
  match ds with
  | 0%N :: ds' => S (leading_zeros ds')
  | _ => 0
  end.

Definition value (ds : list N) : N :=
  fold_left (fun acc d => (acc * 58 + d)%N) ds 0%N.

Definition byte_of_N (n : N) : Byte.byte :=
  match Byte.of_N n with
  | Some b => b
  | None => Byte.x00
  end.

(** Big-endian bytes of [n], no leading zero byte. *)
Fixpoint be_bytes (gas : nat) (n : N) (acc : list Byte.byte) : list Byte.byte :=
  match gas with
  | O => acc
  | S gas' =>
      if (n =? 0)%N then acc
      else be_bytes gas' (n / 256)%N (byte_of_N (n mod 256)%N :: acc)
  end.

(** A reference decoder: one zero byte per leading ['1'], then the
    big-endian bytes of the number the remaining digits spell. *)
Definition decode (s : string) : option (list Byte.byte) :=
  match digits (list_ascii_of_string s) with
  | None => None
  | Some ds =>
      Some (repeat Byte.x00 (leading_zeros ds)
            ++ be_bytes (length ds) (value ds) [])
  end.

End Base58.

Module UserID.

Definition USER_ID_BYTES : nat := 32.
Definition PASSWORD_BYTES : nat := USER_ID_BYTES + 4.

Definition msg_empty : string := "UserID must not be empty.".
Definition msg_base58 : string := "Not valid base58".
Definition msg_short : string := "UserID too short".
Definition msg_password : string := "UserID too long. (This may be a paswword!?)".
Definition msg_long : string := "UserID too long.".

(** The five rejections. *)
Definition rejections : list string :=
  [msg_empty; msg_base58; msg_short; msg_password; msg_long].

Section Parse.

(** [bs58.decode]: [None] when it throws. *)
Variable bs58_decode : string -> option (list Byte.byte).

Definition parseUserID (userID : string) : completion (list Byte.byte) :=
  if String.length userID =? 0 then Throw msg_empty
  else
    match bs58_decode userID with
    | None => Throw msg_base58
    | Some buf =>
        if length buf <? USER_ID_BYTES then Throw msg_short
        else if length buf =? PASSWORD_BYTES then Throw msg_password
        else if USER_ID_BYTES <? length buf then Throw msg_long
        else Return buf
    end.

Definition parseUserIDError (userID : string) : string :=
  match parseUserID userID with
  | Throw errorMessage => errorMessage
  | Return _ => EmptyString
  end.

End Parse.

End UserID.

(** ** Server URLs (common.ts, lines 196-209) *)

Module ServerURL.

(** The fragment of regular expressions the pattern is written in. *)
Inductive regex :=
| Void                          (* matches nothing *)
| Eps                           (* the empty text *)
| Chr (c : ascii)               (* a literal character *)
| NoneOf (cs : list ascii)      (* a negated class [^...] *)
| Seq (r1 r2 : regex)
| Alt (r1 r2 : regex)
| Star (r : regex).

Definition Opt (r : regex) : regex := Alt r Eps.       (* r? *)
Definition Plus (r : regex) : regex := Seq r (Star r). (* r+ *)

Fixpoint Lit (l : list ascii) : regex :=
  match l with
  | [] => Eps
  | c :: l' => Seq (Chr c) (Lit l')
  end.

Fixpoint mem (c : ascii) (cs : list ascii) : bool :=
  match cs with
  | [] => false
  | x :: cs' => Ascii.eqb c x || mem c cs'
  end.

Fixpoint nullable (r : regex) : bool :=
  match r with
  | Void => false
  | Eps => true
  | Chr _ => false
  | NoneOf _ => false
  | Seq r1 r2 => nullable r1 && nullable r2
  | Alt r1 r2 => nullable r1 || nullable r2
  | Star _ => true
  end.

(** What remains to be matched after reading [c]. *)
Fixpoint deriv (c : ascii) (r : regex) : regex :=
  match r with
  | Void => Void
  | Eps => Void
  | Chr x => if Ascii.eqb c x then Eps else Void
  | NoneOf cs => if mem c cs then Void else Eps
  | Seq r1 r2 =>
      if nullable r1
      then Alt (Seq (deriv c r1) r2) (deriv c r2)
      else Seq (deriv c r1) r2
  | Alt r1 r2 => Alt (deriv c r1) (deriv c r2)
  | Star r1 => Seq (deriv c r1) (Star r1)
  end.

(** Does the whole text match?  (The pattern is anchored by [^] and [$].) *)
Fixpoint matches (r : regex) (l : list ascii) : bool :=
  match l with
  | [] => nullable r
  | c :: l' => matches (deriv c r) l'
  end.

(** The texts a regular expression denotes. *)
Inductive lang : regex -> list ascii -> Prop :=
| lang_eps : lang Eps []
| lang_chr c : lang (Chr c) [c]
| lang_noneof cs c : mem c cs = false -> lang (NoneOf cs) [c]
| lang_seq r1 r2 l1 l2 :
    lang r1 l1 -> lang r2 l2 -> lang (Seq r1 r2) (l1 ++ l2)
| lang_alt_l r1 r2 l : lang r1 l -> lang (Alt r1 r2) l
| lang_alt_r r1 r2 l : lang r2 l -> lang (Alt r1 r2) l
| lang_star_nil r : lang (Star r) []
| lang_star_more r l1 l2 :
    lang r l1 -> lang (Star r) l2 -> lang (Star r) (l1 ++ l2).

(** [/^(https?:\/\/[^/ ]+)$/] *)
Definition serverURLPattern : regex :=
  Seq (Lit (list_ascii_of_string "http"))
    (Seq (Opt (Chr "s"))
       (Seq (Lit (list_ascii_of_string "://"))
          (Plus (NoneOf ["/"%char; " "%char])))).

(** [serverURLPattern.exec(url)], as "is there a match". *)
Definition exec (url : string) : bool :=
  matches serverURLPattern (list_ascii_of_string url).

Definition validateServerURL (url : string) : string :=
  if String.eqb url EmptyString then EmptyString
  else if negb (exec url) then "Invalid server URL format"
  else EmptyString.

(** A host: at least one character, none of them ['/'] or a space. *)
Definition is_host (h : list ascii) : Prop :=
  h <> [] /\ Forall (fun c => c <> "/"%char /\ c <> " "%char) h.

(** The shape [http(s)://host], in words. *)
Definition server_url_shape (url : string) : Prop :=
  exists h, is_host h /\
    (url = string_of_list_ascii (list_ascii_of_string "http://" ++ h) \/
     url = string_of_list_ascii (list_ascii_of_string "https://" ++ h)).

End ServerURL.

(** ** The task tracker (common.ts, lines 122-193) *)

Module TaskTracker.

(** [LogEntry]; the two flags are optional fields. *)
Record LogEntry := {
  timestamp : Z;
  message : string;
  isError : option bool;
  isWarning : option bool
}.

(** What a subscriber of the store sees when [set(this)] is called. *)
Record Snapshot := { seen_running : bool; seen_logs : list LogEntry }.

(** The tracker object, with the values its store was set to so far
    ([None]: [store] is null) and the number of clock readings made. *)
Record Tracker := {
  store : option (list Snapshot);
  _isRunning : bool;
  _logs : list LogEntry;
  clock_reads : nat
}.

(** The tracker [t] with [l] as its history. *)
Definition with_logs (l : list LogEntry) (t : Tracker) : Tracker :=
  {| store := store t; _isRunning := _isRunning t;
     _logs := l; clock_reads := clock_reads t |}.

Definition isRunning (t : Tracker) : bool := _isRunning t.
Definition logs (t : Tracker) : list LogEntry := _logs t.

(** A freshly constructed tracker (field initialisers, lines 126-131). *)
Definition new : Tracker :=
  {| store := None; _isRunning := false; _logs := []; clock_reads := 0 |}.

Section Methods.

(** Thrown values.  [to_string e] is what the template literal of line
    143 makes of [e]: its text, or the value that the conversion itself
    throws (a [TypeError] for a Symbol or for an object without a usable
    [toString]). *)
Variable Exn : Type.
Variable to_string : Exn -> string + Exn.

(** [DateTime.local().valueOf()] at its n-th reading. *)
Variable wallclock : nat -> Z.

(** Methods act on the tracker and either complete or throw. *)
Inductive outcome (A : Type) :=
| Done (a : A)
| Thrown (e : Exn).

Arguments Done {A} a.
Arguments Thrown {A} e.

Definition M (A : Type) : Type := Tracker -> outcome A * Tracker.

Definition ret {A} (a : A) : M A := fun t => (Done a, t).

Definition throw {A} (e : Exn) : M A := fun t => (Thrown e, t).

Definition bind {A B} (m : M A) (k : A -> M B) : M B :=
  fun t =>
    match m t with
    | (Done a, t1) => k a t1
    | (Thrown e, t1) => (Thrown e, t1)
    end.

(** [try { body } catch (e) { handler }] *)
Definition try_catch {A} (body : M A) (handler : Exn -> M A) : M A :=
  fun t =>
    match body t with
    | (Done a, t1) => (Done a, t1)
    | (Thrown e, t1) => handler e t1
    end.

Notation "x <- m ;; k" := (bind m (fun x => k))
  (at level 61, m at next level, right associativity).
Notation "m ;;; k" := (bind m (fun _ => k))
  (at level 61, right associativity).

Definition now : M Z :=
  fun t => (Done (wallclock (clock_reads t)),
            {| store := store t; _isRunning := _isRunning t;
               _logs := _logs t; clock_reads := S (clock_reads t) |}).

Definition set_isRunning (b : bool) : M unit :=
  fun t => (Done tt, {| store := store t; _isRunning := b;
                        _logs := _logs t; clock_reads := clock_reads t |}).

Definition set_logs (l : list LogEntry) : M unit :=
  fun t => (Done tt, with_logs l t).

Definition get_logs : M (list LogEntry) := fun t => (Done (_logs t), t).

(** Lines 149-151. *)
Definition notify : M unit :=
  fun t =>
    match store t with
    | Some seen =>
        (Done tt,
         {| store := Some (seen ++ [{| seen_running := _isRunning t;
                                       seen_logs := _logs t |}]);
            _isRunning := _isRunning t; _logs := _logs t;
            clock_reads := clock_reads t |})
    | None => (Done tt, t)
    end.

(** Lines 153-156. *)
Definition clear : M unit :=
  set_logs [] ;;; notify.

(** Lines 158-161. *)
Definition writeLog (log : LogEntry) : M unit :=
  l <- get_logs ;; set_logs (l ++ [log]) ;;; notify.

(** Lines 163-169. *)
Definition error (msg : string) : M unit :=
  ts <- now ;;
  writeLog {| timestamp := ts; message := msg;
              isError := Some true; isWarning := None |}.

(** Lines 171-176. *)
Definition log (msg : string) : M unit :=
  ts <- now ;;
  writeLog {| timestamp := ts; message := msg;
              isError := None; isWarning := None |}.

(** Lines 178-184. *)
Definition warn (msg : string) : M unit :=
  ts <- now ;;
  writeLog {| timestamp := ts; message := msg;
              isError := None; isWarning := Some true |}.

(** An awaited [asyncTask()]: whatever it does to the tracker it holds,
    ending normally or with a thrown value. *)
Definition Task : Type := M unit.

(** The conversion of [e] inside a template literal. *)
Definition template (e : Exn) : M string :=
  fun t =>
    match to_string e with
    | inl text => (Done text, t)
    | inr e' => (Thrown e', t)
    end.

(** Lines 136-147.  The argument of [this.error] is evaluated first, in
    the [catch] block: what it throws leaves [run]. *)
Definition run (asyncTask : Task) : M unit :=
  clear ;;;
  set_isRunning true ;;;
  log "Begin" ;;;
  try_catch asyncTask
    (fun e =>
       text <- template e ;;
       error ("Task threw an exception: " ++ text)) ;;;
  set_isRunning false ;;;
  log "Done".

(** A task that uses the tracker only to record messages: it may add
    entries to the history and removes none. *)
Definition only_appends (task : Task) : Prop :=
  forall t, exists added, _logs (snd (task t)) = _logs t ++ added.

(** A task that records [msgs] as warnings and then throws [e]. *)
Definition warn_then_throw (msgs : list string) (e : Exn) : Task :=
  fold_right (fun m k => warn m ;;; k) (throw e) msgs.


(** The three methods that write a message. *)
Inductive level :=
| LLog      (* [log], lines 171-176 *)
| LWarn     (* [warn], lines 178-184 *)
| LError.   (* [error], lines 163-169 *)

(** A call of one of the public methods that change the history. *)
Inductive call :=
| Message (l : level) (msg : string)
| Clear.

Definition do_call (c : call) : M unit :=
  match c with
  | Message LLog msg => log msg
  | Message LWarn msg => warn msg
  | Message LError msg => error msg
  | Clear => clear
  end.

(** A sequence of calls, one after the other. *)
Fixpoint play (script : list call) : M unit :=
  match script with
  | [] => ret tt
  | c :: script' => do_call c ;;; play script'
  end.

Definition messages (msgs : list (level * string)) : list call :=
  map (fun m => Message (fst m) (snd m)) msgs.

(** The entry a message method builds from a clock reading. *)
Definition entry (l : level) (ts : Z) (msg : string) : LogEntry :=
  {| timestamp := ts; message := msg;
     isError := match l with LError => Some true | _ => None end;
     isWarning := match l with LWarn => Some true | _ => None end |}.

(** Entries for [msgs], the first stamped with the [k]-th clock reading,
    the next with the one after, and so on. *)
Fixpoint stamped (k : nat) (msgs : list (level * string)) : list LogEntry :=
  match msgs with
  | [] => []
  | m :: msgs' => entry (fst m) (wallclock k) (snd m) :: stamped (S k) msgs'
  end.

(** What a store is shown while [new] is added, entry by entry, to the
    history [hist]: each time the whole history so far. *)
Fixpoint snapshots (running : bool) (hist new : list LogEntry)
  : list Snapshot :=
  match new with
  | [] => []
  | e :: new' =>
      {| seen_running := running; seen_logs := hist ++ [e] |}
      :: snapshots running (hist ++ [e]) new'
  end.

End Methods.

Arguments Done {Exn A} a.
Arguments Thrown {Exn A} e.

(** A few values a task can throw, and their conversion to text: a
    string is its own text, an error prints its name and message, and a
    Symbol has no conversion. *)
Inductive thrown :=
| Text (s : string)
| TypeError (msg : string)
| Symbol (description : string).

Definition js_to_string (v : thrown) : string + thrown :=
  match v with
  | Text s => inl s
  | TypeError msg => inl ("TypeError: " ++ msg)%string
  | Symbol _ => inr (TypeError "Cannot convert a Symbol value to a string")
  end.

(** A tracker bound to a store, holding one entry of an earlier run. *)
Definition used_tracker : Tracker :=
  {| store := Some [];
     _isRunning := false;
     _logs := [{| timestamp := 5; message := "Done";
                  isError := None; isWarning := None |}];
     clock_reads := 7 |}.

End TaskTracker.

(** ** The console logger (common.ts, lines 82-119) *)

Module ConsoleLog.

(** The methods of [console] that the logger forwards to. *)
Inductive channel := Debug | Error | Info | Log | Warn.

Section Logging.

(** A loggable value ([any]). *)
Variable Data : Type.

(** One call [console.<channel>(...data)]. *)
Record ConsoleCall := { channel_of : channel; data_of : list Data }.

(** The [Logger] interface (lines 83-89): five methods that take the
    variadic arguments; [E] is what calling one does. *)
Class Logger (L E : Type) := {
  debug : L -> list Data -> E;
  error : L -> list Data -> E;
  info : L -> list Data -> E;
  log : L -> list Data -> E;
  warn : L -> list Data -> E
}.

(** [ConsoleLogger] has one field (line 102). *)
Record ConsoleLogger := { debugEnabled : bool }.

(** [new ConsoleLogger()]. *)
Definition new : ConsoleLogger := {| debugEnabled := false |}.

(** The methods of lines 93-113: the calls made on [console]. *)
#[export] Instance ConsoleLogger_Logger
  : Logger ConsoleLogger (list ConsoleCall) := {|
  error this data := [{| channel_of := Error; data_of := data |}];
  warn this data := [{| channel_of := Warn; data_of := data |}];
  debug this data :=
    if debugEnabled this
    then [{| channel_of := Debug; data_of := data |}] else [];
  info this data :=
    if debugEnabled this
    then [{| channel_of := Info; data_of := data |}] else [];
  log this data :=
    if debugEnabled this
    then [{| channel_of := Log; data_of := data |}] else []
|}.

(** Lines 115-118: sets the flag on [this] and returns [this]. *)
Definition withDebug (this : ConsoleLogger) : ConsoleLogger :=
  {| debugEnabled := true |}.

(** What a program does with a logger. *)
Inductive use :=
| Call (c : channel) (data : list Data)
| WithDebug.

Definition perform (this : ConsoleLogger) (u : use)
  : list ConsoleCall * ConsoleLogger :=
  match u with
  | Call Debug data => (debug this data, this)
  | Call Error data => (error this data, this)
  | Call Info data => (info this data, this)
  | Call Log data => (log this data, this)
  | Call Warn data => (warn this data, this)
  | WithDebug => ([], withDebug this)
  end.

(** A sequence of uses: everything written to the console, and the
    logger afterwards. *)
Fixpoint session (this : ConsoleLogger) (us : list use)
  : list ConsoleCall * ConsoleLogger :=
  match us with
  | [] => ([], this)
  | u :: us' =>
      let (out, this1) := perform this u in
      let (outs, this2) := session this1 us' in
      (out ++ outs, this2)
  end.

(** The logging calls among [us], as calls on [console]. *)
Fixpoint requested (us : list use) : list ConsoleCall :=
  match us with
  | [] => []
  | Call c data :: us' =>
      {| channel_of := c; data_of := data |} :: requested us'
  | WithDebug :: us' => requested us'
  end.

Definition is_loud (c : ConsoleCall) : bool :=
  match channel_of c with
  | Error | Warn => true
  | _ => false
  end.

Definition turns_on (u : use) : bool :=
  match u with
  | WithDebug => true
  | Call _ _ => false
  end.

End Logging.

Arguments is_loud {Data} c.
Arguments turns_on {Data} u.
Arguments WithDebug {Data}.

End ConsoleLog.

(** * Properties *)

(** ** The prefetch generator *)

Module PrefetchFacts.

Import Prefetch.

Section Runs.

Variables T Out Err : Type.
Variable asyncFilter : T -> Promise Out Err.
Variable count : Z.

Local Abbreviation state := (state T Out Err).
Local Abbreviation event := (event T Out Err).
Local Abbreviation run := (run asyncFilter count).
Local Abbreviation step := (step asyncFilter count).

Lemma run_S n (st : state) :
  run (S n) st =
  (emit (fst (step st)) (fst (run n (snd (step st)))),
   snd (run n (snd (step st)))).
Proof.
  simpl. destruct (step st) as [e st1]. simpl.
  destruct (run n st1) as [es st2]. reflexivity.
Qed.

Lemma step_terminated (st : state) :
  terminated st = true -> step st = (None, st).
Proof.
  unfold terminated, Prefetch.step. destruct (ctl st); intro H;
    try discriminate H; reflexivity.
Qed.

Lemma run_terminated n (st : state) :
  terminated st = true -> run n st = ([], st).
Proof.
  intro H. induction n as [|n IH]; [reflexivity|].
  rewrite run_S, (step_terminated st H). simpl. rewrite IH. reflexivity.
Qed.

Lemma emit_app e (es1 es2 : list event) :
  emit e (es1 ++ es2) = emit e es1 ++ es2.
Proof. destruct e; reflexivity. Qed.

Lemma run_add n m (st : state) :
  run (n + m) st =
  (fst (run n st) ++ fst (run m (snd (run n st))),
   snd (run m (snd (run n st)))).
Proof.
  revert st. induction n as [|n IH]; intro st.
  - simpl. destruct (run m st); reflexivity.
  - change (S n + m) with (S (n + m)). rewrite !run_S, IH. simpl.
    rewrite emit_app. reflexivity.
Qed.

(** Once the generator has ended, asking again changes nothing. *)
Lemma run_extend n m (st : state) es fin :
  run n st = (es, fin) -> terminated fin = true -> n <= m ->
  run m st = (es, fin).
Proof.
  intros Hrun Hfin Hle.
  replace m with (n + (m - n)) by lia.
  rewrite run_add, Hrun. simpl.
  rewrite (run_terminated _ _ Hfin). simpl. rewrite app_nil_r. reflexivity.
Qed.

(** One transition followed by a run. *)
Lemma run_step n (st st1 : state) e es fin :
  step st = (e, st1) -> run n st1 = (es, fin) ->
  run (S n) st = (emit e es, fin).
Proof. intros Hs Hr. simpl. rewrite Hs, Hr. reflexivity. Qed.

(** *** The bound is not negative *)

Hypothesis count_nonneg : (0 <= count)%Z.

Local Abbreviation c := (Z.to_nat count).

Lemma test_for_true (a : list (Promise Out Err)) :
  c < length a -> loop_test count InFor a = true.
Proof. intro H. apply Z.ltb_lt. lia. Qed.

Lemma test_for_false (a : list (Promise Out Err)) :
  length a <= c -> loop_test count InFor a = false.
Proof. intro H. apply Z.ltb_ge. lia. Qed.

(** The final loop (lines 71-73) awaits what is left, oldest first. *)
Lemma drain_run (src : list T) (a : list (Promise Out Err)) :
  exists n es fin,
    n <= 2 * length a + 1 /\
    run n {| items := src; outs := a; ctl := AtWhile AfterFor |} = (es, fin) /\
    terminated fin = true /\
    es = expected a /\
    ctl fin = final_ctl a /\
    outs fin = skipn (S (fulfilled_prefix a)) a.
Proof.
  induction a as [|p a IH].
  - exists 1. eexists. eexists. split; [simpl; lia|].
    split; [reflexivity|]. simpl. auto.
  - destruct (result p) as [v|e] eqn:Hp.
    + destruct IH as (n & es & fin & Hn & Hrun & Hfin & Hes & Hctl & Houts).
      exists (S (S n)), (Yield (Some v) :: es), fin.
      split; [simpl length; lia|].
      split.
      { eapply run_step with (e := None); [reflexivity|].
        eapply run_step with (e := Some (Yield (Some v))); [|exact Hrun].
        unfold Prefetch.step. simpl. rewrite Hp. reflexivity. }
      simpl. rewrite Hp. subst es. auto.
    + exists 2. eexists. eexists. split; [simpl length; lia|].
      split.
      { eapply run_step with (e := None); [reflexivity|].
        eapply run_step with (e := Some (Raise e)); [|reflexivity].
        unfold Prefetch.step. simpl. rewrite Hp. reflexivity. }
      simpl. rewrite Hp. auto.
Qed.


Lemma firstn_cons_S (A : Type) n m (y : A) (rest : list A) :
  n = S m -> firstn n (y :: rest) = y :: firstn m rest.
Proof. intros ->. reflexivity. Qed.

Lemma observed_expected (w : list (Promise Out Err)) :
  observed (expected (T := T) w) = expected w.
Proof.
  induction w as [|p w IH]; [reflexivity|].
  simpl. destruct (result p); simpl; [rewrite IH|]; reflexivity.
Qed.

Lemma submitted_expected (w : list (Promise Out Err)) :
  submitted (expected (T := T) w) = [].
Proof.
  induction w as [|p w IH]; [reflexivity|].
  simpl. destruct (result p); simpl; [exact IH|reflexivity].
Qed.

(** The [for await] loop (lines 64-69) followed by the final loop, from
    any window that respects the bound.  [w] lists every promise of the
    run in the order of submission. *)
Lemma for_run (src : list T) :
  forall a : list (Promise Out Err),
    length a <= c ->
    let w := a ++ map asyncFilter src in
    let k := fulfilled_prefix w in
    exists n es fin,
      n <= 4 * length src + 2 * length a + 2 /\
      run n {| items := src; outs := a; ctl := AtFor |} = (es, fin) /\
      terminated fin = true /\
      observed es = expected w /\
      submitted es = firstn (k + c + 1 - length a) src /\
      ctl fin = final_ctl w /\
      outs fin = skipn (S k) (firstn (k + c + 1) w).
Proof.
  induction src as [|y rest IH]; intros a Ha w k.
  - destruct (drain_run [] a)
      as (n & es & fin & Hn & Hrun & Hfin & Hes & Hctl & Houts).
    exists (S n), es, fin.
    assert (Hw : w = a) by apply app_nil_r.
    split; [simpl length; lia|].
    split; [eapply run_step with (e := None); [reflexivity|exact Hrun]|].
    split; [exact Hfin|].
    subst es. rewrite observed_expected, submitted_expected, firstn_nil.
    unfold k. rewrite Hw. repeat split; auto.
    rewrite firstn_all2 by lia. exact Houts.
  - assert (Hw : w = (a ++ [asyncFilter y]) ++ map asyncFilter rest).
    { unfold w. simpl. rewrite <- app_assoc. reflexivity. }
    destruct (Nat.eq_dec (length a) c) as [Heq|Hne].
    + (* the window is full: the oldest promise is shifted and awaited *)
      destruct (a ++ [asyncFilter y]) as [|p a'] eqn:Hshift.
      { destruct a; discriminate Hshift. }
      assert (Hlen : length a' = c).
      { apply (f_equal (@length _)) in Hshift.
        rewrite length_app in Hshift. simpl in Hshift. lia. }
      assert (Hs1 : step {| items := y :: rest; outs := a; ctl := AtFor |}
                    = (Some (Submit y),
                       {| items := rest; outs := p :: a';
                          ctl := AtWhile InFor |})).
      { unfold Prefetch.step. simpl. rewrite Hshift. reflexivity. }
      assert (Hs2 : step {| items := rest; outs := p :: a';
                            ctl := AtWhile InFor |}
                    = (None, {| items := rest; outs := a';
                                ctl := AtYield InFor (Some p) |})).
      { unfold Prefetch.step. cbn [ctl outs items].
        rewrite test_for_true by (simpl; lia). reflexivity. }
      destruct (result p) as [v|e] eqn:Hp.
      * destruct (IH a' ltac:(lia))
          as (n & es & fin & Hn & Hrun & Hfin & Hobs & Hsub & Hctl & Houts).
        exists (4 + n), (Submit y :: Yield (Some v) :: es), fin.
        split; [simpl length; lia|].
        split.
        { eapply run_step with (e := Some (Submit y)); [exact Hs1|].
          eapply run_step with (e := None); [exact Hs2|].
          eapply run_step with (e := Some (Yield (Some v))).
          { unfold Prefetch.step. cbn [ctl outs items]. rewrite Hp.
            reflexivity. }
          eapply run_step with (e := None); [|exact Hrun].
          unfold Prefetch.step. cbn [ctl outs items].
          rewrite test_for_false by lia. reflexivity. }
        split; [exact Hfin|].
        assert (Hk : k = S (fulfilled_prefix (a' ++ map asyncFilter rest))).
        { unfold k. rewrite Hw. simpl. rewrite Hp. reflexivity. }
        split; [|split; [|split]].
        -- rewrite Hw. cbn [observed expected app]. rewrite Hp, Hobs.
           reflexivity.
        -- cbn [submitted]. rewrite Hsub. symmetry.
           apply firstn_cons_S. lia.
        -- rewrite Hctl, Hw. cbn [final_ctl app]. rewrite Hp. reflexivity.
        -- rewrite Houts, Hk, Hw. cbn [Nat.add firstn skipn app].
           reflexivity.
      * exists 3, [Submit y; Raise e],
          {| items := rest; outs := a'; ctl := Threw e |}.
        split; [simpl length; lia|].
        split.
        { eapply run_step with (e := Some (Submit y)); [exact Hs1|].
          eapply run_step with (e := None); [exact Hs2|].
          eapply run_step with (e := Some (Raise e)); [|reflexivity].
          unfold Prefetch.step. cbn [ctl outs items]. rewrite Hp.
          reflexivity. }
        split; [reflexivity|].
        assert (Hk : k = 0).
        { unfold k. rewrite Hw. simpl. rewrite Hp. reflexivity. }
        split; [|split; [|split]].
        -- rewrite Hw. cbn [observed expected app]. rewrite Hp. reflexivity.
        -- cbn [submitted]. symmetry.
           rewrite (firstn_cons_S (m := 0)) by lia. reflexivity.
        -- rewrite Hw. cbn [final_ctl app ctl]. rewrite Hp. reflexivity.
        -- rewrite Hk, Hw. replace (0 + c + 1) with (S c) by lia.
           cbn [firstn skipn app outs].
           rewrite firstn_app, firstn_all2 by lia.
           replace (c - length a') with 0 by lia.
           rewrite firstn_O, app_nil_r. reflexivity.
    + (* room is left: back to the source *)
      destruct (IH (a ++ [asyncFilter y]))
        as (n & es & fin & Hn & Hrun & Hfin & Hobs & Hsub & Hctl & Houts).
      { rewrite length_app. simpl. lia. }
      rewrite length_app in Hn, Hsub. simpl length in Hn, Hsub.
      exists (2 + n), (Submit y :: es), fin.
      split; [simpl length; lia|].
      split.
      { eapply run_step with (e := Some (Submit y)); [reflexivity|].
        eapply run_step with (e := None); [|exact Hrun].
        unfold Prefetch.step. cbn [ctl outs items].
        rewrite test_for_false by (rewrite length_app; simpl; lia).
        reflexivity. }
      split; [exact Hfin|].
      unfold k. rewrite Hw.
      split; [|split; [|split]].
      * cbn [observed]. exact Hobs.
      * cbn [submitted]. rewrite Hsub. symmetry.
        apply firstn_cons_S. lia.
      * exact Hctl.
      * exact Houts.
Qed.


(** The whole run of [prefetch]. *)
Lemma prefetch_run (src : list T) :
  let w := map asyncFilter src in
  let k := fulfilled_prefix w in
  exists es fin,
    prefetch asyncFilter count src = (es, fin) /\
    terminated fin = true /\
    observed es = expected w /\
    submitted es = firstn (k + c + 1) src /\
    ctl fin = final_ctl w /\
    outs fin = skipn (S k) (firstn (k + c + 1) w).
Proof.
  intros w k.
  destruct (for_run src [] ltac:(simpl; lia))
    as (n & es & fin & Hn & Hrun & Hfin & Hobs & Hsub & Hctl & Houts).
  simpl in Hn, Hobs, Hsub, Hctl, Houts.
  rewrite Nat.sub_0_r in Hsub.
  exists es, fin. split; [|auto].
  unfold prefetch, fuel. eapply run_extend; [exact Hrun|exact Hfin|lia].
Qed.

(** *** The window invariant *)

Lemma init_within (src : list T) :
  within_bound count (init (Out := Out) (Err := Err) src).
Proof. unfold within_bound. simpl. lia. Qed.

Lemma step_within (st : state) :
  within_bound count st -> within_bound count (snd (step st)).
Proof.
  destruct st as [its a k]. unfold within_bound, Prefetch.step.
  cbn [ctl outs items].
  destruct k as [|l|l [p|]| |e]; intro H.
  - destruct its as [|item rest]; cbn [snd ctl outs]; [exact H|].
    rewrite length_app. simpl length. lia.
  - destruct l; unfold loop_test;
      match goal with |- context [(?x <? ?y)%Z] =>
        destruct (Z.ltb_spec x y) as [Hlt|Hge] end;
      try (destruct a as [|p a]; cbn [shift snd ctl outs length] in *;
           first [lia | split; [discriminate | lia]]);
      cbn [snd ctl outs loop_exit]; try lia.
    destruct a; [reflexivity | simpl length in Hge; lia].
  - destruct (result p); destruct l; cbn [snd ctl outs]; lia.
  - destruct l; destruct H as [H _]; congruence.
  - exact H.
  - exact H.
Qed.

Lemma run_within n (st : state) :
  within_bound count st -> within_bound count (snd (run n st)).
Proof.
  revert st. induction n as [|n IH]; intros st H; [exact H|].
  rewrite run_S. cbn [snd]. apply IH, step_within, H.
Qed.

Lemma pending_within (st : state) :
  within_bound count st -> (Z.of_nat (pending st) <= count + 1)%Z.
Proof.
  unfold within_bound, pending.
  destruct (ctl st) as [|l|l p| |e]; intro H.
  - lia.
  - destruct l; lia.
  - destruct l, p; destruct H as [_ H]; lia.
  - rewrite H. simpl. lia.
  - lia.
Qed.

(** Each transition hands over one result, accepts one submission, or
    leaves the number of outstanding transforms alone. *)
Lemma step_balance (st : state) :
  within_bound count st ->
  pending st + length (submitted (emit (fst (step st)) [])) =
  length (observed (emit (fst (step st)) [])) + pending (snd (step st)).
Proof.
  destruct st as [its a k]. unfold within_bound, pending, Prefetch.step.
  cbn [ctl outs items].
  destruct k as [|l|l [p|]| |e]; intro H.
  - destruct its as [|item rest]; cbn; [lia|].
    rewrite length_app. simpl length. lia.
  - destruct (loop_test count l a).
    + destruct a as [|p a]; cbn; lia.
    + destruct l; cbn; lia.
  - destruct (result p); cbn; lia.
  - destruct l; destruct H as [H _]; congruence.
  - cbn. lia.
  - cbn. lia.
Qed.

Lemma submitted_emit e (es : list event) :
  length (submitted (emit e es)) =
  length (submitted (emit e [])) + length (submitted es).
Proof. destruct e as [[| |]|]; reflexivity. Qed.

Lemma observed_emit e (es : list event) :
  length (observed (emit e es)) =
  length (observed (emit e [])) + length (observed es).
Proof. destruct e as [[| |]|]; reflexivity. Qed.

Lemma run_balance n (st : state) :
  within_bound count st ->
  pending st + length (submitted (fst (run n st))) =
  length (observed (fst (run n st))) + pending (snd (run n st)).
Proof.
  revert st. induction n as [|n IH]; intros st H; [simpl; lia|].
  rewrite run_S. cbn [fst snd].
  rewrite submitted_emit, observed_emit.
  pose proof (step_balance st H). pose proof (IH _ (step_within st H)).
  lia.
Qed.

End Runs.


(** *** Latencies do not matter *)

Section Latency.

Variables T Out Err : Type.
Variables f g : T -> Promise Out Err.
Variable count : Z.
Hypothesis same : forall x, result (f x) = result (g x).

Lemma step_same (s1 s2 : state T Out Err) :
  same_results s1 s2 ->
  fst (step f count s1) = fst (step g count s2) /\
  same_results (snd (step f count s1)) (snd (step g count s2)).
Proof.
  destruct s1 as [i1 o1 c1], s2 as [i2 o2 c2].
  unfold same_results, step. cbn [items outs ctl].
  intros (Hi & Ho & Hc). subst i2.
  assert (Hlen : length o1 = length o2).
  { apply (f_equal (@length _)) in Ho. rewrite !length_map in Ho. exact Ho. }
  destruct c1 as [|l1|l1 p1| |e1], c2 as [|l2|l2 p2| |e2];
    cbn [same_ctl] in Hc; try contradiction.
  - destruct i1 as [|x rest]; cbn; [auto|].
    rewrite !map_app, Ho. simpl. rewrite same. auto.
  - subst l2.
    assert (Ht : loop_test count l1 o1 = loop_test count l1 o2)
      by (unfold loop_test; rewrite Hlen; reflexivity).
    rewrite <- Ht. destruct (loop_test count l1 o1).
    + destruct o1 as [|p1 o1], o2 as [|p2 o2]; try discriminate Ho; cbn.
      * auto.
      * injection Ho as Hp Ho. rewrite Hp. auto.
    + cbn. repeat split; auto. destruct l1; exact I.
  - destruct Hc as [-> Hp].
    destruct p1 as [p1|], p2 as [p2|]; try discriminate Hp; cbn.
    + injection Hp as Hp. rewrite Hp.
      destruct (result p2); cbn; auto.
    + auto.
  - cbn. auto.
  - subst e2. cbn. auto.
Qed.

Lemma run_same n (s1 s2 : state T Out Err) :
  same_results s1 s2 ->
  fst (run f count n s1) = fst (run g count n s2).
Proof.
  revert s1 s2. induction n as [|n IH]; intros s1 s2 H; [reflexivity|].
  rewrite !run_S. cbn [fst].
  destruct (step_same H) as [He Hs].
  rewrite He, (IH _ _ Hs). reflexivity.
Qed.

(** The trace of a run depends on how the promises settle, not on when. *)
Lemma prefetch_same (src : list T) :
  fst (prefetch f count src) = fst (prefetch g count src).
Proof.
  unfold prefetch. apply run_same.
  unfold same_results. cbn. auto.
Qed.

End Latency.

Section Claims.

Variables T Out Err : Type.
Variable asyncFilter : T -> Promise Out Err.

Lemma yielded_observed (es : list (event T Out Err)) :
  yielded (observed es) = yielded es.
Proof.
  induction es as [|[t|v|e] es IH]; simpl; congruence.
Qed.

Section AllFulfilled.

Variable f : T -> Out.
Variable src : list T.
Hypothesis fulfils :
  forall x, In x src -> result (asyncFilter x) = Fulfilled (f x).

Lemma expected_fulfilled (tl : list (event T Out Err)) w :
  expected w = tl ->
  expected (map asyncFilter src ++ w)
  = map (fun x => Yield (Some (f x))) src ++ tl.
Proof.
  intros <-. induction src as [|x l IH]; [reflexivity|].
  simpl. rewrite fulfils by (left; reflexivity).
  rewrite IH; [reflexivity|].
  intros y Hy. apply fulfils. right. exact Hy.
Qed.

Lemma prefix_fulfilled (w : list (Promise Out Err)) :
  fulfilled_prefix (map asyncFilter src ++ w)
  = length src + fulfilled_prefix w.
Proof.
  induction src as [|x l IH]; [reflexivity|].
  simpl. rewrite fulfils by (left; reflexivity).
  rewrite IH; [reflexivity|].
  intros y Hy. apply fulfils. right. exact Hy.
Qed.

Lemma final_fulfilled (w : list (Promise Out Err)) :
  final_ctl (map asyncFilter src ++ w) = final_ctl w.
Proof.
  induction src as [|x l IH]; [reflexivity|].
  simpl. rewrite fulfils by (left; reflexivity).
  apply IH. intros y Hy. apply fulfils. right. exact Hy.
Qed.

End AllFulfilled.

(** C1, amended: when the transform of every source element is fulfilled,
    the consumer receives exactly the transformed values of the source in
    source order and then the end of the sequence, and the transform was
    invoked once per source element, in source order.  The latencies play
    no part: a transform that settles in the same way at other times gives
    the same run, event for event. *)
Theorem prefetch_maps_in_order (f : T -> Out) (count : Z) (src : list T) :
  (0 <= count)%Z ->
  (forall x, In x src -> result (asyncFilter x) = Fulfilled (f x)) ->
  let es := fst (prefetch asyncFilter count src) in
  let fin := snd (prefetch asyncFilter count src) in
  yielded es = map (fun x => Some (f x)) src /\
  observed es = map (fun x => Yield (Some (f x))) src /\
  submitted es = src /\
  ctl fin = Returned /\
  (forall g : T -> Promise Out Err,
     (forall x, result (g x) = result (asyncFilter x)) ->
     fst (prefetch g count src) = es).
Proof.
  intros Hc Hf.
  assert (Hlat : forall g : T -> Promise Out Err,
             (forall x, result (g x) = result (asyncFilter x)) ->
             fst (prefetch g count src) = fst (prefetch asyncFilter count src))
    by (intros g Hg; apply prefetch_same; exact Hg).
  revert Hlat.
  destruct (prefetch_run asyncFilter Hc src)
    as (es & fin & Hrun & _ & Hobs & Hsub & Hctl & _).
  rewrite Hrun. cbn [fst snd].
  pose proof (expected_fulfilled f src Hf (tl := []) [] eq_refl) as He.
  pose proof (prefix_fulfilled f src Hf []) as Hk.
  pose proof (final_fulfilled f src Hf []) as Hfc.
  rewrite !app_nil_r in *. simpl in Hk, Hfc.
  rewrite He in Hobs. rewrite Hk in Hsub. rewrite Hfc in Hctl.
  intro Hlat.
  split; [|split; [exact Hobs|split; [|split; [exact Hctl|exact Hlat]]]].
  - rewrite <- yielded_observed, Hobs.
    clear. induction src as [|x l IH]; simpl; congruence.
  - rewrite Hsub. apply firstn_all2. lia.
Qed.

(** C3: with [count = 0] the generator produces, event for event, the
    trace of the loop that submits each element and awaits it at once. *)
Theorem prefetch_zero_is_sequential (src : list T) :
  fst (prefetch asyncFilter 0 src) = sequential asyncFilter src /\
  terminated (snd (prefetch asyncFilter 0 src)) = true.
Proof.
  assert (H : exists n fin,
             n <= 4 * length src + 2 /\
             run asyncFilter 0 n {| items := src; outs := []; ctl := AtFor |}
             = (sequential asyncFilter src, fin) /\
             terminated fin = true).
  { induction src as [|y rest IH].
    - exists 2. eexists. split; [simpl; lia|]. split; reflexivity.
    - destruct (result (asyncFilter y)) as [v|e] eqn:Hy.
      + destruct IH as (n & fin & Hn & Hrun & Hfin).
        exists (4 + n), fin. split; [simpl length; lia|].
        split; [|exact Hfin].
        cbn [sequential]. rewrite Hy.
        eapply run_step with (e := Some (Submit y)); [reflexivity|].
        eapply run_step with (e := None); [reflexivity|].
        eapply run_step with (e := Some (Yield (Some v))).
        { unfold step. cbn [ctl outs items]. rewrite Hy. reflexivity. }
        eapply run_step with (e := None); [reflexivity|].
        exact Hrun.
      + exists 3, {| items := rest; outs := []; ctl := Threw e |}.
        split; [simpl length; lia|].
        split; [|reflexivity].
        cbn [sequential]. rewrite Hy.
        eapply run_step with (e := Some (Submit y)); [reflexivity|].
        eapply run_step with (e := None); [reflexivity|].
        eapply run_step with (e := Some (Raise e)).
        { unfold step. cbn [ctl outs items]. rewrite Hy. reflexivity. }
        reflexivity. }
  destruct H as (n & fin & Hn & Hrun & Hfin).
  unfold prefetch, fuel.
  erewrite run_extend by eassumption. split; [reflexivity|exact Hfin].
Qed.

(** C5: on an empty source the generator ends at once: nothing is
    yielded and the transform is never invoked, whatever the bound. *)
Theorem prefetch_empty_source (count : Z) :
  prefetch asyncFilter count []
  = ([], {| items := []; outs := []; ctl := Returned |}) /\
  submitted (fst (prefetch asyncFilter count [])) = [] /\
  yielded (fst (prefetch asyncFilter count [])) = [].
Proof. repeat split. Qed.

(** C2, amended: for a bound that is not negative and any transform,
    after any number of transitions the transforms submitted and not yet
    delivered are those counted by [pending], at most [count + 1]; the
    window starts empty; a transition either consumes one source element
    and appends its promise to the window, or consumes none and does not
    grow the window; the generator ends; when it returns normally the
    window is empty, and when it ends by raising a rejection at most
    [count] promises are left in it. *)
Theorem prefetch_window_bounded (count : Z) (src : list T) :
  (0 <= count)%Z ->
  outs (init (Out := Out) (Err := Err) src) = [] /\
  (forall n,
     let es := fst (run asyncFilter count n (init src)) in
     let st := snd (run asyncFilter count n (init src)) in
     length (submitted es) = length (observed es) + pending st /\
     (Z.of_nat (pending st) <= count + 1)%Z /\
     (ctl st = Returned -> outs st = []) /\
     (forall e, ctl st = Threw e ->
                (Z.of_nat (length (outs st)) <= count)%Z)) /\
  (forall st : state T Out Err,
     let st' := snd (step asyncFilter count st) in
     (items st' = items st /\ length (outs st') <= length (outs st)) \/
     (exists item, items st = item :: items st' /\
                   outs st' = outs st ++ [asyncFilter item])) /\
  terminated (snd (prefetch asyncFilter count src)) = true.
Proof.
  intro Hc. split; [reflexivity|]. split; [|split].
  - intros n es st.
    pose proof (run_within asyncFilter Hc n _ (init_within Out Err Hc src)) as Hin.
    pose proof (run_balance asyncFilter Hc n _ (init_within Out Err Hc src)) as Hb.
    subst es st. change (pending (init src)) with 0 in Hb.
    split; [lia|]. split; [apply pending_within; assumption|].
    unfold within_bound in Hin. split.
    + intro Hr. rewrite Hr in Hin. exact Hin.
    + intros e He. rewrite He in Hin. exact Hin.
  - intros [its a k]. unfold step. cbn [ctl outs items].
    destruct k as [|l|l [p|]| |e].
    + destruct its as [|item rest]; cbn.
      * left. split; [reflexivity|lia].
      * right. exists item. split; reflexivity.
    + left. destruct (loop_test count l a).
      * destruct a as [|p a]; cbn; split; auto; lia.
      * cbn. split; auto.
    + left. destruct (result p); cbn; split; auto.
    + left. cbn. split; auto.
    + left. cbn. split; auto.
    + left. cbn. split; auto.
  - destruct (prefetch_run asyncFilter Hc src) as (es & fin & Hrun & Hfin & _).
    rewrite Hrun. exact Hfin.
Qed.

(** C4, amended: when the transform is fulfilled on the elements before
    [x] and rejected on [x], the consumer receives the transformed values
    of those elements in order and then the rejection, after which the
    generator is finished.  The transform was invoked once on each of the
    elements up to [x] and on the next [count] elements, whose promises
    stay in the window, never awaited; later elements are never
    submitted. *)
Theorem prefetch_rejection
    (f : T -> Out) (count : Z) (pre post : list T) (x : T) (e : Err) :
  (0 <= count)%Z ->
  (forall y, In y pre -> result (asyncFilter y) = Fulfilled (f y)) ->
  result (asyncFilter x) = Rejected e ->
  let es := fst (prefetch asyncFilter count (pre ++ x :: post)) in
  let fin := snd (prefetch asyncFilter count (pre ++ x :: post)) in
  observed es = map (fun y => Yield (Some (f y))) pre ++ [Raise e] /\
  submitted es = pre ++ x :: firstn (Z.to_nat count) post /\
  ctl fin = Threw e /\
  outs fin = map asyncFilter (firstn (Z.to_nat count) post).
Proof.
  intros Hc Hf Hx.
  destruct (prefetch_run asyncFilter Hc (pre ++ x :: post))
    as (es & fin & Hrun & _ & Hobs & Hsub & Hctl & Houts).
  rewrite Hrun. cbn [fst snd].
  rewrite map_app in Hobs, Hsub, Hctl, Houts.
  assert (Hw : expected (T := T) (map asyncFilter (x :: post)) = [Raise e]).
  { simpl. rewrite Hx. reflexivity. }
  rewrite (expected_fulfilled f pre Hf _ Hw) in Hobs.
  rewrite (prefix_fulfilled f pre Hf) in Hsub, Houts.
  rewrite (final_fulfilled f pre Hf) in Hctl.
  cbn [fulfilled_prefix final_ctl map] in Hsub, Hctl, Houts.
  rewrite Hx in Hsub, Hctl, Houts.
  cbn [fulfilled_prefix final_ctl] in Hsub, Hctl, Houts.
  replace (length pre + 0 + Z.to_nat count + 1)
    with (length pre + S (Z.to_nat count)) in Hsub, Houts by lia.
  split; [exact Hobs|]. split; [|split; [exact Hctl|]].
  - rewrite Hsub, firstn_app, firstn_all2 by lia.
    replace (length pre + S (Z.to_nat count) - length pre)
      with (S (Z.to_nat count)) by lia.
    reflexivity.
  - rewrite Houts, firstn_app, firstn_all2
      by (rewrite length_map; lia).
    rewrite length_map.
    replace (length pre + S (Z.to_nat count) - length pre)
      with (S (Z.to_nat count)) by lia.
    replace (S (length pre + 0)) with (length (map asyncFilter pre) + 1)
      by (rewrite length_map; lia).
    rewrite skipn_app, skipn_all2 by lia.
    replace (length (map asyncFilter pre) + 1 - length (map asyncFilter pre))
      with 1 by lia.
    cbn [firstn skipn app]. apply firstn_map.
Qed.

End Claims.

(** *** Concrete runs *)

(** The worked example: squares of 1..4 with two transforms in flight. *)
Example prefetch_squares :
  prefetch (square_unless 0) 2 [1; 2; 3; 4]%Z
  = ([Submit 1; Submit 2; Submit 3; Yield (Some 1); Submit 4; Yield (Some 4);
      Yield (Some 9); Yield (Some 16)]%Z,
     {| items := []; outs := []; ctl := Returned |}).
Proof. vm_compute. reflexivity. Qed.

(** A negative bound is outside the contract: the generator then yields
    [undefined] for ever and leaves the rest of the source untouched. *)
Example prefetch_negative_count :
  fst (run (square_unless 0) (-1) 9 (init [1; 2]%Z))
  = [Submit 1; Yield (Some 1); Yield None; Yield None; Yield None]%Z.
Proof. vm_compute. reflexivity. Qed.

(** With [count = 1] and a transform that rejects the second of four
    elements, the output is not the source mapped through the transform
    (it stops after the first value, with the rejection) and the fourth
    element is never handed to the transform. *)
Lemma rejection_cuts_the_output :
  let es := fst (prefetch (square_unless 2) 1 [1; 2; 3; 4]%Z) in
  es = [Submit 1; Submit 2; Yield (Some 1); Submit 3; Raise 2]%Z /\
  yielded es = [Some 1%Z] /\
  yielded es <> [Some 1; Some 4; Some 9; Some 16]%Z /\
  submitted es = [1; 2; 3]%Z /\
  submitted es <> [1; 2; 3; 4]%Z.
Proof. vm_compute. repeat split; discriminate. Qed.

Lemma prefetch_maps_in_order_witness :
  (0 <= 2)%Z /\
  (forall x, In x [1; 2; 3; 4]%Z ->
             result (square_unless 0 x) = Fulfilled (x * x)%Z) /\
  yielded (fst (prefetch (square_unless 0) 2 [1; 2; 3; 4]%Z))
  = [Some 1; Some 4; Some 9; Some 16]%Z.
Proof.
  assert (H : forall x, In x [1; 2; 3; 4]%Z ->
                        result (square_unless 0 x) = Fulfilled (x * x)%Z).
  { intros x [<-|[<-|[<-|[<-|[]]]]]; reflexivity. }
  split; [lia|]. split; [exact H|].
  exact (proj1 (prefetch_maps_in_order (square_unless 0)
                  (fun x => (x * x)%Z) (count := 2) [1; 2; 3; 4]%Z
                  ltac:(lia) H)).
Defined.

(** With [count = 1] and a transform that rejects the first of two
    elements, the generator ends with the second promise still in its
    window. *)
Lemma window_left_after_rejection :
  let st := snd (prefetch (square_unless 1) 1 [1; 2]%Z) in
  terminated st = true /\
  ctl st = Threw 1%Z /\
  outs st = [square_unless 1 2] /\
  length (outs st) <> 0.
Proof. vm_compute. repeat split; discriminate. Qed.

Lemma prefetch_window_bounded_witness :
  (0 <= 2)%Z /\
  (Z.of_nat (pending (snd (run (square_unless 0) 2 5 (init [1; 2; 3; 4]%Z))))
   <= 2 + 1)%Z.
Proof.
  split; [lia|].
  exact (proj1 (proj2 (proj1 (proj2 (prefetch_window_bounded
           (square_unless 0) (count := 2) [1; 2; 3; 4]%Z ltac:(lia))) 5))).
Defined.

(** With [count = 0] and a transform that rejects the second of three
    elements, the third element is never handed to the transform. *)
Lemma rejection_ends_the_run :
  let es := fst (prefetch (square_unless 2) 0 [1; 2; 3]%Z) in
  let st := snd (prefetch (square_unless 2) 0 [1; 2; 3]%Z) in
  es = [Submit 1; Yield (Some 1); Submit 2; Raise 2]%Z /\
  ctl st = Threw 2%Z /\
  items st = [3%Z] /\
  ~ In 3%Z (submitted es).
Proof.
  vm_compute. repeat split.
  intros [H|[H|[]]]; discriminate H.
Qed.

Lemma prefetch_rejection_witness :
  (0 <= 1)%Z /\
  (forall y, In y [1%Z] -> result (square_unless 2 y) = Fulfilled (y * y)%Z) /\
  result (square_unless 2 2) = Rejected 2%Z /\
  submitted (fst (prefetch (square_unless 2) 1 ([1] ++ 2 :: [3; 4])%Z))
  = ([1] ++ 2 :: firstn (Z.to_nat 1) [3; 4])%Z.
Proof.
  assert (H : forall y, In y [1%Z] ->
                        result (square_unless 2 y) = Fulfilled (y * y)%Z).
  { intros y [<-|[]]; reflexivity. }
  split; [lia|]. split; [exact H|]. split; [reflexivity|].
  exact (proj1 (proj2 (@prefetch_rejection Z Z Z (square_unless 2)
                         (fun y => (y * y)%Z) 1%Z [1%Z] [3; 4]%Z 2%Z 2%Z
                         ltac:(lia) H eq_refl))).
Defined.

End PrefetchFacts.

(** ** User IDs *)

Module UserIDFacts.

Import UserID.

Section Parse.

Variable bs58_decode : string -> option (list Byte.byte).

Local Abbreviation parseUserID := (parseUserID bs58_decode).
Local Abbreviation parseUserIDError := (parseUserIDError bs58_decode).

Lemma rejections_distinct : NoDup rejections.
Proof.
  unfold rejections.
  repeat (constructor; [simpl; intuition discriminate|]). constructor.
Qed.

Lemma length_zero (s : string) : (String.length s =? 0) = true <-> s = EmptyString.
Proof.
  destruct s; simpl; split; intro H; try reflexivity; discriminate H.
Qed.

(** What [parseUserID] does, by the length of the decoded bytes. *)
Lemma parseUserID_decoded (s : string) (buf : list Byte.byte) :
  s <> EmptyString -> bs58_decode s = Some buf ->
  parseUserID s =
    if length buf <? 32 then Throw msg_short
    else if length buf =? 36 then Throw msg_password
    else if 32 <? length buf then Throw msg_long
    else Return buf.
Proof.
  intros Hs Hd. unfold UserID.parseUserID.
  destruct (String.length s =? 0) eqn:Hl.
  - apply length_zero in Hl. contradiction.
  - rewrite Hd. reflexivity.
Qed.

Ltac by_length buf :=
  destruct (Nat.ltb_spec (length buf) 32);
  [|destruct (Nat.eqb_spec (length buf) 36);
    [|destruct (Nat.ltb_spec 32 (length buf))]].

(** Every outcome of [parseUserID] with the condition under which it
    occurs. *)
Lemma parseUserID_outcomes (s : string) :
  (parseUserID s = Throw msg_empty <-> s = EmptyString) /\
  (parseUserID s = Throw msg_base58 <->
     s <> EmptyString /\ bs58_decode s = None) /\
  (parseUserID s = Throw msg_short <->
     s <> EmptyString /\
     exists buf, bs58_decode s = Some buf /\ length buf < 32) /\
  (parseUserID s = Throw msg_password <->
     s <> EmptyString /\
     exists buf, bs58_decode s = Some buf /\ length buf = 36) /\
  (parseUserID s = Throw msg_long <->
     s <> EmptyString /\
     exists buf, bs58_decode s = Some buf /\
                 32 < length buf /\ length buf <> 36) /\
  (forall buf, parseUserID s = Return buf <->
     s <> EmptyString /\ bs58_decode s = Some buf /\ length buf = 32) /\
  ((exists buf, parseUserID s = Return buf) \/
   (exists msg, In msg rejections /\ parseUserID s = Throw msg)).
Proof.
  destruct (string_dec s EmptyString) as [->|Hs].
  { change (parseUserID EmptyString) with (@Throw (list Byte.byte) msg_empty).
    split; [split; reflexivity|].
    do 4 (split; [split; [intro H; discriminate H
                         |intros [H _]; now contradiction H]|]).
    split.
    - intro buf. split; [intro H; discriminate H
                        |intros [H _]; now contradiction H].
    - right. exists msg_empty. split; [left|]; reflexivity. }
  destruct (bs58_decode s) as [buf|] eqn:Hd.
  - rewrite (parseUserID_decoded Hs Hd).
    assert (Hsame : forall b, Some buf = Some b -> b = buf)
      by (intros b Hb; congruence).
    by_length buf.
    + split; [split; [intro H'; discriminate H'|congruence]|].
      split; [split; [intro H'; discriminate H'
                     |intros [_ H']; discriminate H']|].
      split; [split; [intros _; split; [exact Hs|]; exists buf; auto
                     |reflexivity]|].
      split; [split; [intro H'; discriminate H'
                     |intros [_ (b & Hb & ?)]; apply Hsame in Hb; subst b;
                      lia]|].
      split; [split; [intro H'; discriminate H'
                     |intros [_ (b & Hb & ?)]; apply Hsame in Hb; subst b;
                      lia]|].
      split.
      * intro b. split; [intro H'; discriminate H'
                        |intros (_ & Hb & ?); apply Hsame in Hb; subst b;
                         lia].
      * right. exists msg_short. split; [simpl; tauto|reflexivity].
    + split; [split; [intro H'; discriminate H'|congruence]|].
      split; [split; [intro H'; discriminate H'
                     |intros [_ H']; discriminate H']|].
      split; [split; [intro H'; discriminate H'
                     |intros [_ (b & Hb & ?)]; apply Hsame in Hb; subst b;
                      lia]|].
      split; [split; [intros _; split; [exact Hs|]; exists buf; auto
                     |reflexivity]|].
      split; [split; [intro H'; discriminate H'
                     |intros [_ (b & Hb & ?)]; apply Hsame in Hb; subst b;
                      lia]|].
      split.
      * intro b. split; [intro H'; discriminate H'
                        |intros (_ & Hb & ?); apply Hsame in Hb; subst b;
                         lia].
      * right. exists msg_password. split; [simpl; tauto|reflexivity].
    + split; [split; [intro H'; discriminate H'|congruence]|].
      split; [split; [intro H'; discriminate H'
                     |intros [_ H']; discriminate H']|].
      split; [split; [intro H'; discriminate H'
                     |intros [_ (b & Hb & ?)]; apply Hsame in Hb; subst b;
                      lia]|].
      split; [split; [intro H'; discriminate H'
                     |intros [_ (b & Hb & ?)]; apply Hsame in Hb; subst b;
                      lia]|].
      split; [split; [intros _; split; [exact Hs|]; exists buf; auto
                     |reflexivity]|].
      split.
      * intro b. split; [intro H'; discriminate H'
                        |intros (_ & Hb & ?); apply Hsame in Hb; subst b;
                         lia].
      * right. exists msg_long. split; [simpl; tauto|reflexivity].
    + split; [split; [intro H'; discriminate H'|congruence]|].
      split; [split; [intro H'; discriminate H'
                     |intros [_ H']; discriminate H']|].
      do 3 (split; [split; [intro H'; discriminate H'
                           |intros [_ (b & Hb & ?)]; apply Hsame in Hb;
                            subst b; lia]|]).
      split.
      * intro b. split.
        -- intro H'. injection H' as <-. repeat split; auto. lia.
        -- intros (_ & Hb & _). apply Hsame in Hb. subst b. reflexivity.
      * left. exists buf. reflexivity.
  - assert (Hp : parseUserID s = Throw msg_base58).
    { unfold UserID.parseUserID.
      destruct (String.length s =? 0) eqn:Hl.
      - apply length_zero in Hl. contradiction.
      - rewrite Hd. reflexivity. }
    rewrite Hp.
    split; [split; [intro H'; discriminate H'|congruence]|].
    split; [split; [intros _; split; auto|reflexivity]|].
    do 3 (split; [split; [intro H'; discriminate H'
                         |intros [_ (b & Hb & _)]; discriminate Hb]|]).
    split.
    + intro b. split; [intro H'; discriminate H'
                      |intros (_ & Hb & _); discriminate Hb].
    + right. exists msg_base58. split; [simpl; tauto|reflexivity].
Qed.

(** C6: [parseUserID] returns the decoded bytes or throws one of five
    messages, each under its own condition: the text is empty; it does
    not decode as base58; it decodes to fewer than 32 bytes; to exactly
    36 bytes; to more than 32 bytes but not 36.  The five messages are
    distinct and one of the six outcomes occurs. *)
Theorem parseUserID_rejections (s : string) :
  NoDup rejections /\
  (parseUserID s = Throw msg_empty <-> s = EmptyString) /\
  (parseUserID s = Throw msg_base58 <->
     s <> EmptyString /\ bs58_decode s = None) /\
  (parseUserID s = Throw msg_short <->
     s <> EmptyString /\
     exists buf, bs58_decode s = Some buf /\ length buf < 32) /\
  (parseUserID s = Throw msg_password <->
     s <> EmptyString /\
     exists buf, bs58_decode s = Some buf /\ length buf = 36) /\
  (parseUserID s = Throw msg_long <->
     s <> EmptyString /\
     exists buf, bs58_decode s = Some buf /\
                 32 < length buf /\ length buf <> 36) /\
  (forall buf, parseUserID s = Return buf <->
     s <> EmptyString /\ bs58_decode s = Some buf /\ length buf = 32) /\
  ((exists buf, parseUserID s = Return buf) \/
   (exists msg, In msg rejections /\ parseUserID s = Throw msg)).
Proof. split; [exact rejections_distinct|exact (parseUserID_outcomes s)]. Qed.

(** C7: what [parseUserID] returns is 32 bytes long, and it throws on
    every text whose base58 decoding is not 32 bytes long. *)
Theorem parseUserID_fixed_length :
  (forall s buf, parseUserID s = Return buf -> length buf = USER_ID_BYTES) /\
  (forall s,
     (forall buf, bs58_decode s = Some buf -> length buf <> USER_ID_BYTES) ->
     exists msg, In msg rejections /\ parseUserID s = Throw msg).
Proof.
  split.
  - intros s buf H.
    destruct (parseUserID_outcomes s) as (_ & _ & _ & _ & _ & Hret & _).
    apply Hret in H. destruct H as (_ & _ & H). exact H.
  - intros s Hlen.
    destruct (parseUserID_outcomes s) as (_ & _ & _ & _ & _ & Hret & Hall).
    destruct Hall as [[buf Hbuf]|Hthrow]; [|exact Hthrow].
    apply Hret in Hbuf. destruct Hbuf as (_ & Hd & H32).
    exfalso. exact (Hlen buf Hd H32).
Qed.

Lemma rejections_nonempty (msg : string) :
  In msg rejections -> msg <> EmptyString.
Proof.
  unfold rejections. simpl.
  intros [<-|[<-|[<-|[<-|[<-|[]]]]]]; discriminate.
Qed.

(** [parseUserIDError] is the empty text on acceptance and the thrown
    message otherwise. *)
Lemma parseUserIDError_outcomes (s : string) :
  (parseUserIDError s = EmptyString <-> exists buf, parseUserID s = Return buf) /\
  (forall msg, parseUserID s = Throw msg ->
               parseUserIDError s = msg /\ msg <> EmptyString).
Proof.
  unfold UserID.parseUserIDError.
  destruct (parseUserID_outcomes s) as (_ & _ & _ & _ & _ & _ & Hall).
  destruct Hall as [[buf Hbuf]|(m & Hin & Hm)].
  - rewrite Hbuf. split.
    + split; [intros _; exists buf|]; reflexivity.
    + intros msg H. discriminate H.
  - rewrite Hm. pose proof (rejections_nonempty Hin) as Hne. split.
    + split; [intro H; contradiction|intros [buf H]; discriminate H].
    + intros msg H. injection H as <-. split; [reflexivity|exact Hne].
Qed.

End Parse.

(** The reference decoder on a few texts. *)
Example decode_2g : Base58.decode "2g" = Some [Byte.x61].
Proof. vm_compute. reflexivity. Qed.

Example decode_foreign : Base58.decode "0OIl" = None.
Proof. vm_compute. reflexivity. Qed.

Example decode_hello :
  Base58.decode "StV1DL6CwTryKyV"
  = Some [Byte.x68; Byte.x65; Byte.x6c; Byte.x6c; Byte.x6f; Byte.x20;
          Byte.x77; Byte.x6f; Byte.x72; Byte.x6c; Byte.x64].
Proof. vm_compute. reflexivity. Qed.

Lemma parseUserID_fixed_length_witness :
  parseUserID Base58.decode "11111111111111111111111111111111"
  = Return (repeat Byte.x00 32) /\
  length (repeat Byte.x00 32) = USER_ID_BYTES /\
  (forall buf, Base58.decode "2g" = Some buf -> length buf <> USER_ID_BYTES) /\
  (exists msg, In msg rejections /\
               parseUserID Base58.decode "2g" = Throw msg).
Proof.
  assert (H1 : parseUserID Base58.decode "11111111111111111111111111111111"
               = Return (repeat Byte.x00 32)) by (vm_compute; reflexivity).
  assert (H2 : forall buf, Base58.decode "2g" = Some buf ->
                           length buf <> USER_ID_BYTES).
  { intros buf H. rewrite decode_2g in H. injection H as <-. discriminate. }
  split; [exact H1|].
  split; [exact (proj1 (parseUserID_fixed_length Base58.decode) _ _ H1)|].
  split; [exact H2|].
  exact (proj2 (parseUserID_fixed_length Base58.decode) "2g"%string H2).
Defined.

End UserIDFacts.

(** ** Server URLs *)

Module ServerURLFacts.

Import ServerURL.

#[local] Hint Constructors lang : core.

Lemma nullable_lang (r : regex) : nullable r = true <-> lang r [].
Proof.
  induction r as [| |c|cs|r1 IH1 r2 IH2|r1 IH1 r2 IH2|r IH]; simpl.
  - split; [discriminate|]. intro H. inversion H.
  - split; auto.
  - split; [discriminate|]. intro H. inversion H.
  - split; [discriminate|]. intro H. inversion H.
  - rewrite andb_true_iff, IH1, IH2. split.
    + intros [H1 H2]. change (@nil ascii) with (@nil ascii ++ []). auto.
    + intro H. inversion H as [| | |? ? l1 l2 H1 H2| | | |].
      match goal with
      | Hl : _ ++ _ = [] |- _ => apply app_eq_nil in Hl; destruct Hl
      end.
      subst. auto.
  - rewrite orb_true_iff, IH1, IH2. split.
    + intros [H|H]; auto.
    + intro H. inversion H; auto.
  - split; auto.
Qed.

(** A non-empty text of a repetition starts with a non-empty round. *)
Lemma star_cons (r : regex) (c : ascii) (l : list ascii) :
  lang (Star r) (c :: l) ->
  exists l1 l2, l = l1 ++ l2 /\ lang r (c :: l1) /\ lang (Star r) l2.
Proof.
  intro H. remember (Star r) as sr eqn:Hsr. remember (c :: l) as cl eqn:Hcl.
  induction H as [| | | | | | |r' l1 l2 H1 _ H2 IH2]; try discriminate.
  injection Hsr as ->.
  destruct l1 as [|x l1].
  - simpl in Hcl. apply IH2; [reflexivity|exact Hcl].
  - simpl in Hcl. injection Hcl as <- <-. exists l1, l2. auto.
Qed.

Lemma deriv_lang (c : ascii) (r : regex) :
  forall l, lang (deriv c r) l <-> lang r (c :: l).
Proof.
  induction r as [| |x|cs|r1 IH1 r2 IH2|r1 IH1 r2 IH2|r IH]; intro l; simpl.
  - split; intro H; inversion H.
  - split; intro H; inversion H.
  - destruct (Ascii.eqb_spec c x) as [->|Hne].
    + split; intro H; inversion H; subst; auto.
    + split; intro H; inversion H; subst; congruence.
  - destruct (mem c cs) eqn:Hm.
    + split; intro H; inversion H; subst; congruence.
    + split; intro H; inversion H; subst; auto.
  - assert (Hseq : lang (Seq (deriv c r1) r2) l ->
                   lang (Seq r1 r2) (c :: l)).
    { intro H. inversion H as [| | |? ? l1 l2 H1 H2| | | |]; subst.
      apply IH1 in H1. change (c :: l1 ++ l2) with ((c :: l1) ++ l2). auto. }
    assert (Hinv : lang (Seq r1 r2) (c :: l) ->
                   lang (Seq (deriv c r1) r2) l \/
                   (lang r1 [] /\ lang (deriv c r2) l)).
    { intro H. inversion H as [| | |? ? l1 l2 H1 H2| | | |].
      match goal with Hl : _ ++ _ = _ :: _ |- _ => rename Hl into Hl' end.
      destruct l1 as [|x l1]; simpl in Hl'.
      - right. subst l2. split; [exact H1|]. apply IH2. exact H2.
      - injection Hl' as -> <-. left. apply IH1 in H1. auto. }
    destruct (nullable r1) eqn:Hn.
    + split.
      * intro H. inversion H; subst; auto.
        apply nullable_lang in Hn. change (c :: l) with ([] ++ c :: l).
        constructor; [exact Hn|]. apply IH2. assumption.
      * intro H. destruct (Hinv H) as [H'|[_ H']]; auto.
    + split; [exact Hseq|].
      intro H. destruct (Hinv H) as [H'|[H' _]]; [exact H'|].
      apply nullable_lang in H'. congruence.
  - split; intro H; inversion H; subst.
    + apply lang_alt_l, IH1. assumption.
    + apply lang_alt_r, IH2. assumption.
    + apply lang_alt_l, IH1. assumption.
    + apply lang_alt_r, IH2. assumption.
  - split.
    + intro H. inversion H as [| | |? ? l1 l2 H1 H2| | | |]; subst.
      apply IH in H1. change (c :: l1 ++ l2) with ((c :: l1) ++ l2). auto.
    + intro H. apply star_cons in H. destruct H as (l1 & l2 & -> & H1 & H2).
      constructor; [apply IH; exact H1|exact H2].
Qed.

(** The matcher decides membership. *)
Lemma matches_lang (l : list ascii) :
  forall r, matches r l = true <-> lang r l.
Proof.
  induction l as [|c l IH]; intro r; simpl.
  - apply nullable_lang.
  - rewrite IH. apply deriv_lang.
Qed.


Lemma lang_seq_inv (r1 r2 : regex) (l : list ascii) :
  lang (Seq r1 r2) l <->
  exists l1 l2, l = l1 ++ l2 /\ lang r1 l1 /\ lang r2 l2.
Proof.
  split.
  - intro H. inversion H as [| | |? ? l1 l2 H1 H2| | | |]; subst.
    exists l1, l2. auto.
  - intros (l1 & l2 & -> & H1 & H2). auto.
Qed.

Lemma lang_Lit (s l : list ascii) : lang (Lit s) l <-> l = s.
Proof.
  revert l. induction s as [|c s IH]; intro l; simpl.
  - split; [intro H; inversion H; reflexivity|intros ->; auto].
  - rewrite lang_seq_inv. split.
    + intros (l1 & l2 & -> & H1 & H2). inversion H1; subst.
      apply IH in H2. subst. reflexivity.
    + intros ->. exists [c], s. repeat split; auto. apply IH. reflexivity.
Qed.

Lemma lang_opt_chr (c : ascii) (l : list ascii) :
  lang (Opt (Chr c)) l <-> l = [c] \/ l = [].
Proof.
  unfold Opt. split.
  - intro H. inversion H as [| | | |? ? ? H1|? ? ? H1| |]; subst;
      inversion H1; auto.
  - intros [->| ->]; auto.
Qed.

Lemma lang_star_noneof (cs l : list ascii) :
  lang (Star (NoneOf cs)) l <-> Forall (fun c => mem c cs = false) l.
Proof.
  split.
  - intro H. remember (Star (NoneOf cs)) as r eqn:Hr.
    induction H as [| | | | | | |r' l1 l2 H1 _ H2 IH2]; try discriminate.
    + constructor.
    + injection Hr as ->. inversion H1; subst. simpl.
      constructor; [assumption|]. apply IH2. reflexivity.
  - induction 1 as [|c l Hc _ IH]; [auto|].
    change (c :: l) with ([c] ++ l). auto.
Qed.

Lemma lang_plus_noneof (cs l : list ascii) :
  lang (Plus (NoneOf cs)) l <->
  l <> [] /\ Forall (fun c => mem c cs = false) l.
Proof.
  unfold Plus. rewrite lang_seq_inv. split.
  - intros (l1 & l2 & -> & H1 & H2). inversion H1; subst.
    apply lang_star_noneof in H2. simpl. split; [discriminate|].
    constructor; assumption.
  - intros [Hne H]. destruct l as [|c l]; [contradiction|].
    inversion H; subst. exists [c], l. repeat split; auto.
    apply lang_star_noneof. assumption.
Qed.

Lemma not_slash_or_space (c : ascii) :
  mem c ["/"%char; " "%char] = false <-> c <> "/"%char /\ c <> " "%char.
Proof.
  simpl. rewrite orb_false_r, orb_false_iff, !Ascii.eqb_neq. reflexivity.
Qed.

Lemma is_host_mem (h : list ascii) :
  is_host h <->
  h <> [] /\ Forall (fun c => mem c ["/"%char; " "%char] = false) h.
Proof.
  unfold is_host. rewrite !Forall_forall.
  split; intros [Hne H]; (split; [exact Hne|]); intros c Hc;
    apply not_slash_or_space, H, Hc.
Qed.

(** The texts of the pattern are [http://] or [https://] followed by a
    host. *)
Lemma lang_serverURLPattern (l : list ascii) :
  lang serverURLPattern l <->
  exists h, is_host h /\
    (l = list_ascii_of_string "http://" ++ h \/
     l = list_ascii_of_string "https://" ++ h).
Proof.
  unfold serverURLPattern. split.
  - intro H.
    apply lang_seq_inv in H. destruct H as (a & l1 & -> & Ha & H).
    apply lang_seq_inv in H. destruct H as (b & l2 & -> & Hb & H).
    apply lang_seq_inv in H. destruct H as (d & h & -> & Hd & H).
    apply lang_Lit in Ha, Hd. apply lang_opt_chr in Hb.
    apply lang_plus_noneof, is_host_mem in H. subst a d.
    exists h. split; [exact H|].
    destruct Hb as [->| ->]; [right|left]; reflexivity.
  - intros (h & Hh & Hl).
    apply is_host_mem, lang_plus_noneof in Hh.
    assert (Hs : forall b, lang (Opt (Chr "s")) b ->
                 lang (Seq (Lit (list_ascii_of_string "http"))
                         (Seq (Opt (Chr "s"))
                            (Seq (Lit (list_ascii_of_string "://"))
                               (Plus (NoneOf ["/"%char; " "%char])))))
                      (list_ascii_of_string "http" ++ b
                       ++ list_ascii_of_string "://" ++ h)).
    { intros b Hb. constructor; [apply lang_Lit; reflexivity|].
      constructor; [exact Hb|].
      constructor; [apply lang_Lit; reflexivity|exact Hh]. }
    destruct Hl as [->| ->].
    + apply (Hs []). apply lang_opt_chr. right. reflexivity.
    + apply (Hs ["s"%char]). apply lang_opt_chr. left. reflexivity.
Qed.

Lemma exec_shape (url : string) :
  exec url = true <-> server_url_shape url.
Proof.
  unfold exec, server_url_shape.
  rewrite matches_lang, lang_serverURLPattern.
  split; intros (h & Hh & Hl); exists h; (split; [exact Hh|]).
  - destruct Hl as [Hl|Hl]; [left|right]; rewrite <- Hl;
      symmetry; apply string_of_list_ascii_of_string.
  - destruct Hl as [Hl|Hl]; [left|right]; rewrite Hl;
      apply list_ascii_of_string_of_list_ascii.
Qed.

(** [validateServerURL] accepts the empty text and the texts of the shape
    [http(s)://host], and gives its one reason for every other text. *)
Lemma validateServerURL_outcomes (url : string) :
  (validateServerURL url = EmptyString <->
     url = EmptyString \/ server_url_shape url) /\
  (validateServerURL url <> EmptyString ->
     validateServerURL url = "Invalid server URL format"%string).
Proof.
  unfold validateServerURL.
  destruct (String.eqb_spec url EmptyString) as [->|Hne].
  - split; [split; auto|]. intro H. contradiction.
  - destruct (exec url) eqn:He; simpl.
    + split; [|intro H; contradiction].
      split; [|reflexivity]. intros _. right. apply exec_shape. exact He.
    + split; [|reflexivity].
      split; [discriminate|].
      intros [H|H]; [contradiction|].
      apply exec_shape in H. congruence.
Qed.

(** C8: both validators are total functions into texts.  [validateServerURL]
    returns the empty text exactly on the empty text and on the texts
    [http://host] and [https://host] whose host is non-empty and free of
    ['/'] and space, and the non-empty reason "Invalid server URL format"
    on all others.  [parseUserIDError] returns the empty text exactly when
    [parseUserID] returns, and otherwise the non-empty message that
    [parseUserID] throws. *)
Theorem validators_return_reasons
    (bs58_decode : string -> option (list Byte.byte)) (text : string) :
  (validateServerURL text = EmptyString <->
     text = EmptyString \/ server_url_shape text) /\
  (validateServerURL text <> EmptyString ->
     validateServerURL text = "Invalid server URL format"%string) /\
  (UserID.parseUserIDError bs58_decode text = EmptyString <->
     exists buf, UserID.parseUserID bs58_decode text = Return buf) /\
  (forall msg, UserID.parseUserID bs58_decode text = Throw msg ->
     UserID.parseUserIDError bs58_decode text = msg /\ msg <> EmptyString).
Proof.
  destruct (validateServerURL_outcomes text) as [H1 H2].
  destruct (UserIDFacts.parseUserIDError_outcomes bs58_decode text)
    as [H3 H4].
  auto.
Qed.

Lemma validators_return_reasons_witness :
  validateServerURL "https://example.com/" <> EmptyString /\
  validateServerURL "https://example.com/" = "Invalid server URL format"%string /\
  UserID.parseUserID Base58.decode "2g" = Throw UserID.msg_short /\
  UserID.parseUserIDError Base58.decode "2g" = UserID.msg_short.
Proof.
  assert (H1 : validateServerURL "https://example.com/" <> EmptyString)
    by (vm_compute; discriminate).
  assert (H2 : UserID.parseUserID Base58.decode "2g" = Throw UserID.msg_short)
    by (vm_compute; reflexivity).
  split; [exact H1|].
  split;
    [exact (proj1 (proj2 (validators_return_reasons Base58.decode
                            "https://example.com/")) H1)|].
  split; [exact H2|].
  exact (proj1 (proj2 (proj2 (proj2 (validators_return_reasons Base58.decode
                                       "2g"))) _ H2)).
Defined.

Example url_plain : validateServerURL "http://example.com" = EmptyString.
Proof. vm_compute. reflexivity. Qed.

Example url_port : validateServerURL "https://blog.nfnitloop.com:8080" = EmptyString.
Proof. vm_compute. reflexivity. Qed.

Example url_trailing_slash :
  validateServerURL "https://example.com/" = "Invalid server URL format"%string.
Proof. vm_compute. reflexivity. Qed.

Example url_no_scheme :
  validateServerURL "example.com" = "Invalid server URL format"%string.
Proof. vm_compute. reflexivity. Qed.

Example url_no_host :
  validateServerURL "https://" = "Invalid server URL format"%string.
Proof. vm_compute. reflexivity. Qed.

End ServerURLFacts.

(** ** The task tracker *)

Module TaskTrackerFacts.

Import TaskTracker.

Section Methods.

Variable Exn : Type.
Variable to_string : Exn -> string + Exn.
Variable wallclock : nat -> Z.

Local Abbreviation M := (M Exn).
Local Abbreviation Task := (Task Exn).
Local Abbreviation run := (run to_string wallclock).
Local Abbreviation warn := (warn Exn wallclock).

(** The three kinds of entries [run] writes. *)
Local Abbreviation plain ts msg :=
  {| timestamp := ts; message := msg; isError := None; isWarning := None |}.
Local Abbreviation failure ts text :=
  {| timestamp := ts;
     message := "Task threw an exception: " ++ text;
     isError := Some true; isWarning := None |}.

Lemma notify_effect (t : Tracker) :
  fst (notify Exn t) = Done tt /\
  _logs (snd (notify Exn t)) = _logs t /\
  _isRunning (snd (notify Exn t)) = _isRunning t /\
  clock_reads (snd (notify Exn t)) = clock_reads t.
Proof. unfold notify. destruct (store t); simpl; auto. Qed.


Lemma clear_effect (t : Tracker) :
  fst (clear Exn t) = Done tt /\
  _logs (snd (clear Exn t)) = [] /\
  _isRunning (snd (clear Exn t)) = _isRunning t /\
  clock_reads (snd (clear Exn t)) = clock_reads t.
Proof.
  unfold clear, bind, set_logs, with_logs, notify. simpl.
  destruct (store t); simpl; auto.
Qed.

(** Everything [run] does.  The task starts from a history that holds
    the "Begin" entry alone, with the running flag up.  If the task
    returns, or throws a value that has a text, [run] completes with the
    flag down and the final history is the one the task left, followed by
    the error entry if the task threw, and "Done".  If the task throws a
    value whose conversion throws, that second value leaves [run] and the
    tracker stays as the task left it. *)
Lemma run_effect (task : Task) (t : Tracker) :
  exists t1,
    _logs t1 = [plain (wallclock (clock_reads t)) "Begin"%string] /\
    _isRunning t1 = true /\
    match task t1 with
    | (Done _, t2) =>
        fst (run task t) = Done tt /\
        _isRunning (snd (run task t)) = false /\
        _logs (snd (run task t))
        = _logs t2 ++ [plain (wallclock (clock_reads t2)) "Done"%string]
    | (Thrown e, t2) =>
        match to_string e with
        | inl text =>
            fst (run task t) = Done tt /\
            _isRunning (snd (run task t)) = false /\
            _logs (snd (run task t))
            = _logs t2 ++ [failure (wallclock (clock_reads t2)) text;
                           plain (wallclock (S (clock_reads t2)))
                             "Done"%string]
        | inr e' => run task t = (Thrown e', t2)
        end
    end.
Proof.
  exists (snd (bind (clear Exn)
                 (fun _ => bind (set_isRunning Exn true)
                             (fun _ => log Exn wallclock "Begin")) t)).
  unfold TaskTracker.run, bind, try_catch, template, clear, set_isRunning,
    log, error, now, writeLog, get_logs, set_logs, with_logs, notify, bind.
  destruct (store t) as [seen|]; cbn;
    match goal with |- context [task ?x] =>
      destruct (task x) as [[[]|e] t2] end;
    cbn; try destruct (to_string e) as [text|e']; cbn;
    try reflexivity;
    destruct (store t2); cbn; rewrite <- ?app_assoc; auto.
Qed.

(** A value with a text is caught for good. *)
Lemma run_completes (task : Task) (t : Tracker) :
  (forall t1 e, fst (task t1) = Thrown e -> exists text, to_string e = inl text) ->
  fst (run task t) = Done tt /\ _isRunning (snd (run task t)) = false.
Proof.
  intro Hp. destruct (run_effect task t) as (t1 & _ & _ & H).
  pose proof (Hp t1) as Hp1.
  destruct (task t1) as [[[]|e] t2]; [tauto|].
  destruct (Hp1 e eq_refl) as [text Ht]. rewrite Ht in H. tauto.
Qed.

(** *** Tasks that only record messages *)

Lemma only_appends_ret (A : Type) (a : A) (k : A -> Task) :
  only_appends (k a) -> only_appends (bind (ret Exn a) k).
Proof. intros H t. exact (H t). Qed.








End Methods.

(** *** Concrete runs *)

Example run_failing_task :
  let r := run js_to_string Z.of_nat
             (warn_then_throw Z.of_nat ["low disk"%string] (Text "boom"))
             used_tracker in
  fst r = Done tt /\
  isRunning (snd r) = false /\
  map message (logs (snd r))
  = ["Begin"; "low disk"; "Task threw an exception: boom"; "Done"]%string /\
  map isError (logs (snd r)) = [None; None; Some true; None] /\
  map timestamp (logs (snd r)) = [7; 8; 9; 10]%Z /\
  option_map (@length _) (store (snd r)) = Some 5.
Proof. vm_compute. repeat split. Qed.

(** C9, at a task that throws a Symbol: the [catch] block takes the value
    but its template literal cannot convert it, so [run] rejects with the
    [TypeError] of the conversion; the running flag stays up and neither
    an error entry nor "Done" is written. *)
Theorem run_rejects_on_symbol :
  let r := run js_to_string Z.of_nat (throw (Symbol "oops")) used_tracker in
  fst r = Thrown (TypeError "Cannot convert a Symbol value to a string") /\
  isRunning (snd r) = true /\
  map message (logs (snd r)) = ["Begin"%string] /\
  option_map (@length _) (store (snd r)) = Some 2.
Proof. vm_compute. repeat split. Qed.



End TaskTrackerFacts.

(** ** More on the prefetch generator *)

Module PrefetchMore.

Import Prefetch PrefetchFacts.

Section AnyBound.

Variables T Out Err : Type.
Variable asyncFilter : T -> Promise Out Err.
Variable count : Z.

Local Abbreviation state := (state T Out Err).
Local Abbreviation event := (event T Out Err).
Local Abbreviation run := (run asyncFilter count).
Local Abbreviation step := (step asyncFilter count).

Lemma submitted_app (es1 es2 : list event) :
  submitted (es1 ++ es2) = submitted es1 ++ submitted es2.
Proof.
  induction es1 as [|[t|v|e] es1 IH]; simpl; congruence.
Qed.

Lemma observed_app (es1 es2 : list event) :
  observed (es1 ++ es2) = observed es1 ++ observed es2.
Proof.
  induction es1 as [|[t|v|e] es1 IH]; simpl; congruence.
Qed.

Lemma emit_cons e (es : list event) : emit e es = emit e [] ++ es.
Proof. destruct e; reflexivity. Qed.

(** A transition hands to the transform the head of what is left of the
    source, or nothing. *)
Lemma step_consumes (st : state) :
  submitted (emit (fst (step st)) []) ++ items (snd (step st)) = items st.
Proof.
  destruct st as [its a k]. unfold Prefetch.step. cbn [ctl outs items].
  destruct k as [|l|l [p|]| |e].
  - destruct its; reflexivity.
  - destruct (loop_test count l a); [destruct (shift a)|]; reflexivity.
  - destruct (result p); reflexivity.
  - reflexivity.
  - reflexivity.
  - reflexivity.
Qed.

Lemma run_consumes n (st : state) :
  submitted (fst (run n st)) ++ items (snd (run n st)) = items st.
Proof.
  revert st. induction n as [|n IH]; intro st; [reflexivity|].
  rewrite run_S. cbn [fst snd].
  rewrite emit_cons, submitted_app, <- app_assoc, IH.
  apply step_consumes.
Qed.

(** X1: at every point of a run, for every bound and every transform, the
    elements handed to the transform so far followed by what is left of
    the source are the source: elements are submitted in source order,
    none is skipped and none is submitted twice. *)
Theorem submissions_follow_the_source (src : list T) (n : nat) :
  submitted (fst (run n (init src))) ++ items (snd (run n (init src))) = src.
Proof. exact (run_consumes n (init src)). Qed.

End AnyBound.

Section Bounded.

Variables T Out Err : Type.
Variable asyncFilter : T -> Promise Out Err.
Variable count : Z.
Hypothesis count_nonneg : (0 <= count)%Z.

Local Abbreviation state := (state T Out Err).
Local Abbreviation run := (run asyncFilter count).
Local Abbreviation step := (step asyncFilter count).

Lemma step_depth (st : state) :
  within_bound count st -> at_depth count st ->
  at_depth count (snd (step st)).
Proof.
  destruct st as [its a k]. unfold within_bound, at_depth, Prefetch.step.
  cbn [ctl outs items].
  destruct k as [|l|l [p|]| |e]; intros Hw Hd.
  - destruct its; cbn; auto.
  - destruct l; unfold loop_test.
    + destruct (Z.ltb_spec count (Z.of_nat (length a))) as [Hlt|Hge].
      * destruct a as [|p a]; cbn [shift snd ctl outs length] in *; lia.
      * cbn. exact I.
    + destruct (Z.ltb_spec 0 (Z.of_nat (length a))) as [Hlt|Hge].
      * destruct a as [|p a]; cbn; exact Hd.
      * cbn. exact I.
  - destruct (result p); destruct l; cbn; auto.
  - destruct l; cbn; auto.
  - exact I.
  - exact I.
Qed.

Lemma run_depth n (st : state) :
  within_bound count st -> at_depth count st ->
  at_depth count (snd (run n st)).
Proof.
  revert st. induction n as [|n IH]; intros st Hw Hd; [exact Hd|].
  rewrite run_S. cbn [snd].
  apply IH; [apply step_within|apply step_depth]; assumption.
Qed.

End Bounded.


Section Pipeline.

Variables T Out Err : Type.
Variable asyncFilter : T -> Promise Out Err.

(** X2: the depth of the pipeline.  For a bound that is not negative,
    whenever a result is about to be delivered (the generator awaits the
    promise it has just shifted), the number of source elements handed to
    the transform so far is the number of results already delivered plus
    [count + 1], or the whole source if it is shorter than that. *)
Theorem prefetch_depth
    (count : Z) (src : list T) (n : nat) (l : loop) (p : Promise Out Err) :
  (0 <= count)%Z ->
  ctl (snd (run asyncFilter count n (init src))) = AtYield l (Some p) ->
  length (submitted (fst (run asyncFilter count n (init src))))
  = Nat.min (length src)
      (length (observed (fst (run asyncFilter count n (init src))))
       + Z.to_nat count + 1).
Proof.
  intros Hc Hctl.
  pose proof (run_within asyncFilter Hc n _ (init_within Out Err Hc src)) as Hw.
  pose proof (run_balance asyncFilter Hc n _ (init_within Out Err Hc src)) as Hb.
  pose proof (run_depth asyncFilter Hc n _ (init_within Out Err Hc src) I) as Hd.
  pose proof (run_consumes asyncFilter count n (init src)) as Hs.
  apply (f_equal (@length _)) in Hs. rewrite length_app in Hs.
  change (items (init src)) with src in Hs.
  change (pending (init src)) with 0 in Hb.
  unfold within_bound, at_depth, pending in *.
  rewrite Hctl in *.
  destruct l.
  - destruct Hw as [_ Hw]. lia.
  - destruct Hw as [_ Hw]. rewrite Hd in Hs. simpl in Hs. lia.
Qed.

Lemma observed_sequential (src : list T) :
  observed (sequential asyncFilter src) = expected (map asyncFilter src).
Proof.
  induction src as [|x src IH]; [reflexivity|].
  simpl. destruct (result (asyncFilter x)); simpl; [rewrite IH|]; reflexivity.
Qed.

(** X3: for every bound that is not negative and every transform, failing
    ones included, the consumer receives exactly what the loop that awaits
    each element at once would deliver: the bound changes when transforms
    are started, never what is delivered or in which order. *)
Theorem prefetch_delivers_as_sequential (count : Z) (src : list T) :
  (0 <= count)%Z ->
  observed (fst (prefetch asyncFilter count src))
  = observed (sequential asyncFilter src).
Proof.
  intro Hc.
  destruct (prefetch_run asyncFilter Hc src) as (es & fin & Hrun & _ & Hobs & _).
  rewrite Hrun, observed_sequential. exact Hobs.
Qed.

(** X4: a consumer may stop at any point: what it has received by then is
    an initial segment of the results in source order (cut at the first
    rejection), for every bound that is not negative. *)
Theorem prefetch_delivers_a_prefix (count : Z) (src : list T) (n : nat) :
  (0 <= count)%Z ->
  exists later,
    expected (map asyncFilter src)
    = observed (fst (run asyncFilter count n (init src))) ++ later.
Proof.
  intro Hc.
  destruct (prefetch_run asyncFilter Hc src)
    as (es & fin & Hrun & Hfin & Hobs & _).
  unfold prefetch in Hrun.
  destruct (Nat.le_gt_cases n (fuel src)) as [Hle|Hgt].
  - replace (fuel src) with (n + (fuel src - n)) in Hrun by lia.
    rewrite run_add in Hrun. injection Hrun as Hes _.
    rewrite <- Hobs, <- Hes, observed_app. eexists. reflexivity.
  - exists []. rewrite app_nil_r, <- Hobs.
    erewrite run_extend; [reflexivity|exact Hrun|exact Hfin|lia].
Qed.

Section Roomy.

Variable count : Z.
Hypothesis count_nonneg : (0 <= count)%Z.

Lemma roomy_run (src : list T) :
  forall a : list (Promise Out Err),
    (Z.of_nat (length a + length src) <= count)%Z ->
    exists n fin,
      n <= 4 * length src + 2 * length a + 2 /\
      run asyncFilter count n {| items := src; outs := a; ctl := AtFor |}
      = (map Submit src ++ expected (a ++ map asyncFilter src), fin) /\
      terminated fin = true.
Proof.
  induction src as [|y rest IH]; intros a Ha.
  - destruct (drain_run asyncFilter count [] a)
      as (n & es & fin & Hn & Hrun & Hfin & Hes & _).
    exists (S n), fin. split; [simpl length; lia|]. split; [|exact Hfin].
    rewrite app_nil_r. subst es.
    eapply run_step with (e := None); [reflexivity|exact Hrun].
  - destruct (IH (a ++ [asyncFilter y])) as (n & fin & Hn & Hrun & Hfin).
    { rewrite length_app. simpl length in *. lia. }
    rewrite length_app in Hn. simpl length in Hn.
    exists (2 + n), fin. split; [simpl length; lia|]. split; [|exact Hfin].
    rewrite <- app_assoc in Hrun.
    eapply run_step with (e := Some (Submit y)); [reflexivity|].
    eapply run_step with (e := None); [|exact Hrun].
    unfold step. cbn [ctl outs items].
    rewrite (test_for_false count_nonneg)
      by (rewrite length_app; simpl length in *; lia).
    reflexivity.
Qed.

End Roomy.

(** X5: when the bound is at least the length of the source, every
    element is handed to the transform before the first result is
    awaited: the run is all the submissions, in source order, followed by
    the results in source order up to the first rejection. *)
Theorem prefetch_submits_all_first (count : Z) (src : list T) :
  (Z.of_nat (length src) <= count)%Z ->
  fst (prefetch asyncFilter count src)
  = map Submit src ++ expected (map asyncFilter src).
Proof.
  intro Hlen.
  assert (Hc : (0 <= count)%Z) by lia.
  destruct (roomy_run Hc src [] ltac:(simpl; lia))
    as (n & fin & Hn & Hrun & Hfin).
  unfold prefetch, fuel. simpl length in Hn.
  erewrite run_extend; [reflexivity|exact Hrun|exact Hfin|lia].
Qed.

(** X6: a negative bound.  When the source is not empty and the transform
    of its first element is fulfilled, the generator hands that element to
    the transform, yields its result, and from then on yields [undefined]
    on every request: it never ends and the rest of the source is never
    consumed. *)
Theorem prefetch_negative_bound
    (count : Z) (x : T) (rest : list T) (v : Out) :
  (count < 0)%Z ->
  result (asyncFilter x) = Fulfilled v ->
  (forall k,
     run asyncFilter count (3 + 2 * k) (init (x :: rest))
     = ([Submit x; Yield (Some v)] ++ repeat (Yield None) k,
        {| items := rest; outs := []; ctl := AtWhile InFor |})) /\
  (forall n, terminated (snd (run asyncFilter count n (init (x :: rest))))
             = false).
Proof.
  intros Hc Hx.
  set (idle := {| items := rest; outs := @nil (Promise Out Err);
                  ctl := AtWhile InFor |}).
  set (undef := {| items := rest; outs := @nil (Promise Out Err);
                   ctl := AtYield InFor None |}).
  assert (Htest : forall a : list (Promise Out Err),
             loop_test count InFor a = true).
  { intro a. apply Z.ltb_lt. lia. }
  assert (H3 : run asyncFilter count 3 (init (x :: rest))
               = ([Submit x; Yield (Some v)], idle)).
  { eapply run_step with (e := Some (Submit x)); [reflexivity|].
    eapply run_step with (e := None).
    { unfold step. cbn [ctl outs items]. rewrite Htest. reflexivity. }
    eapply run_step with (e := Some (Yield (Some v))); [|reflexivity].
    unfold step. cbn [ctl outs items]. rewrite Hx. reflexivity. }
  assert (Hidle : step asyncFilter count idle = (None, undef)).
  { unfold step, idle. cbn [ctl outs items]. rewrite Htest. reflexivity. }
  assert (Hundef : step asyncFilter count undef = (Some (Yield None), idle))
    by reflexivity.
  assert (Hloop : forall k, run asyncFilter count (2 * k) idle
                            = (repeat (Yield None) k, idle)).
  { induction k as [|k IH]; [reflexivity|].
    replace (2 * S k) with (S (S (2 * k))) by lia.
    eapply run_step with (e := None); [exact Hidle|].
    eapply run_step with (e := Some (Yield None)); [exact Hundef|exact IH]. }
  assert (Hlive : forall n,
             terminated (snd (run asyncFilter count n idle)) = false /\
             terminated (snd (run asyncFilter count n undef)) = false).
  { induction n as [|n [IH1 IH2]]; [split; reflexivity|].
    rewrite !run_S, Hidle, Hundef. cbn [snd]. auto. }
  split.
  - intro k. rewrite run_add, H3. cbn [fst snd].
    rewrite Hloop. reflexivity.
  - intro n. destruct (Nat.le_gt_cases 3 n) as [Hge|Hlt].
    + replace n with (3 + (n - 3)) by lia.
      rewrite run_add, H3. cbn [fst snd]. apply Hlive.
    + destruct n as [|[|[|n]]]; try lia.
      * reflexivity.
      * reflexivity.
      * assert (H2 : run asyncFilter count 2 (init (x :: rest))
                     = ([Submit x],
                        {| items := rest; outs := [];
                           ctl := AtYield InFor (Some (asyncFilter x)) |})).
        { eapply run_step with (e := Some (Submit x)); [reflexivity|].
          eapply run_step with (e := None); [|reflexivity].
          unfold step. cbn [ctl outs items]. rewrite Htest. reflexivity. }
        rewrite H2. reflexivity.
Qed.

End Pipeline.

(** *** Concrete runs *)

Lemma prefetch_depth_witness :
  (0 <= 2)%Z /\
  ctl (snd (run (square_unless 0) 2 6 (init [1; 2; 3; 4]%Z)))
  = AtYield InFor (Some (square_unless 0 1)) /\
  length (submitted (fst (run (square_unless 0) 2 6 (init [1; 2; 3; 4]%Z))))
  = 3.
Proof.
  split; [lia|]. split; [reflexivity|].
  exact (@prefetch_depth Z Z Z (square_unless 0) 2 [1; 2; 3; 4]%Z 6
           InFor (square_unless 0 1) ltac:(lia) eq_refl).
Defined.

Lemma prefetch_delivers_as_sequential_witness :
  (0 <= 3)%Z /\
  observed (fst (prefetch (square_unless 3) 3 [1; 2; 3; 4]%Z))
  = [Yield (Some 1); Yield (Some 4); Raise 3]%Z.
Proof.
  split; [lia|].
  exact (prefetch_delivers_as_sequential (square_unless 3) (count := 3)
           [1; 2; 3; 4]%Z ltac:(lia)).
Defined.

Lemma prefetch_delivers_a_prefix_witness :
  (0 <= 1)%Z /\
  exists later,
    expected (map (square_unless 0) [1; 2; 3]%Z)
    = observed (fst (run (square_unless 0) 1 6 (init [1; 2; 3]%Z))) ++ later.
Proof.
  split; [lia|].
  exact (prefetch_delivers_a_prefix (square_unless 0) (count := 1)
           [1; 2; 3]%Z 6 ltac:(lia)).
Defined.

Lemma prefetch_submits_all_first_witness :
  (Z.of_nat (length [1; 2; 3]%Z) <= 5)%Z /\
  fst (prefetch (square_unless 0) 5 [1; 2; 3]%Z)
  = ([Submit 1; Submit 2; Submit 3;
      Yield (Some 1); Yield (Some 4); Yield (Some 9)])%Z.
Proof.
  split; [simpl; lia|].
  exact (prefetch_submits_all_first (square_unless 0) (count := 5)
           [1; 2; 3]%Z ltac:(simpl; lia)).
Defined.

Lemma prefetch_negative_bound_witness :
  (-1 < 0)%Z /\
  result (square_unless 0 1) = Fulfilled 1%Z /\
  run (square_unless 0) (-1) (3 + 2 * 2) (init [1; 2]%Z)
  = ([Submit 1; Yield (Some 1); Yield None; Yield None]%Z,
     {| items := [2%Z]; outs := []; ctl := AtWhile InFor |}).
Proof.
  split; [lia|]. split; [reflexivity|].
  exact (proj1 (@prefetch_negative_bound Z Z Z (square_unless 0) (-1) 1%Z
                  [2%Z] 1%Z ltac:(lia) eq_refl) 2).
Defined.

End PrefetchMore.

(** ** More on server URLs *)

Module ServerURLMore.

Import ServerURL ServerURLFacts.

Lemma list_ascii_app (s1 s2 : string) :
  list_ascii_of_string (s1 ++ s2)
  = list_ascii_of_string s1 ++ list_ascii_of_string s2.
Proof.
  induction s1 as [|c s1 IH]; simpl; [reflexivity|]. rewrite IH. reflexivity.
Qed.

(** The characters of an accepted text that is not empty. *)
Lemma accepted_chars (url : string) :
  validateServerURL url = EmptyString -> url <> EmptyString ->
  exists h, is_host h /\
    (list_ascii_of_string url = list_ascii_of_string "http://" ++ h \/
     list_ascii_of_string url = list_ascii_of_string "https://" ++ h).
Proof.
  intros Hv Hne.
  apply validateServerURL_outcomes in Hv.
  destruct Hv as [Hv|(h & Hh & Hv)]; [contradiction|].
  exists h. split; [exact Hh|].
  destruct Hv as [->| ->]; [left|right];
    apply list_ascii_of_string_of_list_ascii.
Qed.

Lemma host_no_slash (h : list ascii) :
  is_host h -> filter (Ascii.eqb "/") h = [].
Proof.
  intros [_ H]. induction H as [|c h [Hc _] _ IH]; [reflexivity|].
  cbn [filter]. destruct (Ascii.eqb_spec "/" c) as [Heq|_]; [|exact IH].
  symmetry in Heq. contradiction.
Qed.

(** X7: a text that [validateServerURL] accepts and that is not empty has
    no space and exactly two ['/'], those after the scheme: a URL with a
    path, a query after a slash or a space anywhere is rejected. *)
Theorem accepted_url_has_no_path (url : string) :
  validateServerURL url = EmptyString ->
  url <> EmptyString ->
  ~ In " "%char (list_ascii_of_string url) /\
  length (filter (Ascii.eqb "/") (list_ascii_of_string url)) = 2.
Proof.
  intros Hv Hne.
  destruct (accepted_chars Hv Hne) as (h & Hh & Hl).
  pose proof (host_no_slash Hh) as Hs.
  destruct Hh as [_ Hh]. rewrite Forall_forall in Hh.
  destruct Hl as [-> | ->]; rewrite filter_app, Hs; (split; [|reflexivity]);
    intro Hin; apply in_app_or in Hin; destruct Hin as [Hin|Hin];
    try (apply Hh in Hin; destruct Hin as [_ Hin]; now apply Hin);
    simpl in Hin; intuition discriminate.
Qed.

(** X8: a text that ends with ['/'] is always rejected, whatever comes
    before the slash. *)
Theorem trailing_slash_is_rejected (s : string) :
  validateServerURL (s ++ "/") = "Invalid server URL format"%string.
Proof.
  apply validateServerURL_outcomes. intro Hv.
  assert (Hne : (s ++ "/")%string <> EmptyString)
    by (destruct s; discriminate).
  destruct (accepted_chars Hv Hne) as (h & [Hh0 Hh] & Hl).
  rewrite list_ascii_app in Hl.
  change (list_ascii_of_string "/") with ["/"%char] in Hl.
  destruct (exists_last Hh0) as (h' & c & ->).
  apply Forall_app in Hh. destruct Hh as [_ Hc].
  inversion Hc as [|? ? [Hslash _] _]; subst.
  destruct Hl as [Hl|Hl]; rewrite app_assoc in Hl;
    apply app_inj_tail in Hl; destruct Hl as [_ Hl];
    apply Hslash; symmetry; exact Hl.
Qed.

Lemma accepted_url_has_no_path_witness :
  validateServerURL "https://blog.example:8080" = EmptyString /\
  "https://blog.example:8080"%string <> EmptyString /\
  length (filter (Ascii.eqb "/")
            (list_ascii_of_string "https://blog.example:8080")) = 2.
Proof.
  assert (H1 : validateServerURL "https://blog.example:8080" = EmptyString)
    by (vm_compute; reflexivity).
  assert (H2 : "https://blog.example:8080"%string <> EmptyString)
    by discriminate.
  split; [exact H1|]. split; [exact H2|].
  exact (proj2 (accepted_url_has_no_path H1 H2)).
Defined.

End ServerURLMore.

(** ** More on the task tracker *)

Module TaskTrackerMore.

Import TaskTracker TaskTrackerFacts.

Section Scripts.

Variable Exn : Type.
Variable to_string : Exn -> string + Exn.
Variable wallclock : nat -> Z.

Local Abbreviation M := (M Exn).
Local Abbreviation play := (play Exn wallclock).
Local Abbreviation do_call := (do_call Exn wallclock).
Local Abbreviation stamped := (stamped wallclock).
Local Abbreviation run := (run to_string wallclock).

(** One message call: the clock is read once, the entry goes to the end
    of the history, and a store, if there is one, is shown the result. *)
Lemma message_effect (l : level) (msg : string) (t : Tracker) :
  do_call (Message l msg) t =
  (Done tt,
   {| store :=
        option_map
          (fun seen =>
             seen ++ [{| seen_running := _isRunning t;
                         seen_logs :=
                           _logs t ++ [entry l (wallclock (clock_reads t)) msg]
                      |}])
          (store t);
      _isRunning := _isRunning t;
      _logs := _logs t ++ [entry l (wallclock (clock_reads t)) msg];
      clock_reads := S (clock_reads t) |}).
Proof.
  destruct t as [[seen|] r ls k]; destruct l; reflexivity.
Qed.

Lemma play_cons (c : call) (script : list call) (t : Tracker) :
  fst (do_call c t) = Done tt ->
  play (c :: script) t = play script (snd (do_call c t)).
Proof.
  intro H. cbn [TaskTracker.play]. unfold bind.
  destruct (do_call c t) as [[[]|e] t1]; [reflexivity|discriminate H].
Qed.

Lemma do_call_done (c : call) (t : Tracker) : fst (do_call c t) = Done tt.
Proof.
  destruct c as [l msg|].
  - rewrite message_effect. reflexivity.
  - apply clear_effect.
Qed.

Lemma play_app (s1 s2 : list call) (t : Tracker) :
  fst (play s1 t) = Done tt /\
  play (s1 ++ s2) t = play s2 (snd (play s1 t)).
Proof.
  revert t. induction s1 as [|c s1 IH]; intro t; [split; reflexivity|].
  cbn [app]. rewrite !play_cons by apply do_call_done. apply IH.
Qed.

(** What a sequence of message calls does to the tracker. *)
Lemma play_messages (msgs : list (level * string)) (t : Tracker) :
  let r := play (messages msgs) t in
  fst r = Done tt /\
  _logs (snd r) = _logs t ++ stamped (clock_reads t) msgs /\
  _isRunning (snd r) = _isRunning t /\
  clock_reads (snd r) = clock_reads t + length msgs /\
  store (snd r)
  = option_map
      (fun seen =>
         seen ++ snapshots (_isRunning t) (_logs t)
                   (stamped (clock_reads t) msgs))
      (store t).
Proof.
  revert t. induction msgs as [|[l msg] msgs IH]; intro t; cbn zeta.
  - cbn. rewrite app_nil_r, Nat.add_0_r.
    split; [reflexivity|]. split; [reflexivity|]. split; [reflexivity|].
    split; [reflexivity|].
    destruct (store t); cbn; [rewrite app_nil_r|]; reflexivity.
  - cbn [messages map fst snd]. fold (messages msgs).
    rewrite play_cons by apply do_call_done.
    rewrite message_effect. cbn [snd].
    match goal with |- context [play (messages msgs) ?t1] =>
      destruct (IH t1) as (H1 & H2 & H3 & H4 & H5) end.
    cbn [_logs _isRunning clock_reads store] in H2, H3, H4, H5.
    rewrite H1, H2, H3, H4, H5.
    split; [reflexivity|].
    split; [cbn [TaskTracker.stamped fst snd]; rewrite <- app_assoc;
            reflexivity|].
    split; [reflexivity|]. split; [simpl length; lia|].
    destruct (store t); cbn; [rewrite <- app_assoc|]; reflexivity.
Qed.

(** X9: a sequence of [log], [warn] and [error] calls never throws, reads
    the clock once per call and appends one entry per call, in call order,
    stamped with successive clock readings and flagged by the method used;
    earlier entries and the running flag are untouched.  A tracker bound
    to a store shows it, after every call, the whole history so far; a
    tracker without a store stays without. *)
Theorem messages_are_appended (msgs : list (level * string)) (t : Tracker) :
  let r := play (messages msgs) t in
  fst r = Done tt /\
  _logs (snd r) = _logs t ++ stamped (clock_reads t) msgs /\
  _isRunning (snd r) = _isRunning t /\
  clock_reads (snd r) = clock_reads t + length msgs /\
  store (snd r)
  = option_map
      (fun seen =>
         seen ++ snapshots (_isRunning t) (_logs t)
                   (stamped (clock_reads t) msgs))
      (store t).
Proof. exact (play_messages msgs t). Qed.

(** X10: [clear] discards everything written before it: after any
    sequence of calls, a [clear] and further messages, the history is
    those further messages alone, stamped with the clock readings that
    follow the ones already made. *)
Theorem clear_starts_afresh
    (before : list call) (after : list (level * string)) (t : Tracker) :
  let r := play (before ++ Clear :: messages after) t in
  fst r = Done tt /\
  _logs (snd r) = stamped (clock_reads (snd (play before t))) after /\
  _isRunning (snd r) = _isRunning (snd (play before t)).
Proof.
  cbn zeta.
  destruct (play_app before (Clear :: messages after) t) as [_ ->].
  rewrite play_cons by apply do_call_done.
  destruct (clear_effect Exn (snd (play before t))) as (_ & Hl & Hr & Hk).
  change (do_call Clear) with (clear Exn).
  destruct (play_messages after (snd (clear Exn (snd (play before t)))))
    as (H1 & H2 & H3 & _).
  rewrite H1, H2, H3, Hl, Hr, Hk. auto.
Qed.

(** X11: what a store is shown by [run].  Before the task starts it is
    shown the emptied history, still with the old running flag, and then
    the "Begin" entry with the flag up.  When [run] completes and the
    tracker is still bound to a store, the store has only been added to
    and the last thing it is shown is the final state: the flag down and
    the whole final history.  When a value leaves [run] (the task threw
    one that has no text), the store is shown nothing after the task. *)
Theorem run_publishes
    (task : Task Exn) (t : Tracker) (seen : list Snapshot) :
  store t = Some seen ->
  exists t1,
    store t1
    = Some (seen ++
            [{| seen_running := _isRunning t; seen_logs := [] |};
             {| seen_running := true;
                seen_logs := [entry LLog (wallclock (clock_reads t))
                                "Begin"] |}]) /\
    _logs t1 = [entry LLog (wallclock (clock_reads t)) "Begin"] /\
    match fst (run task t) with
    | Thrown _ => store (snd (run task t)) = store (snd (task t1))
    | Done _ =>
        match store (snd (task t1)) with
        | None => store (snd (run task t)) = None
        | Some seen' =>
            exists final,
              store (snd (run task t)) = Some final /\
              last final {| seen_running := true; seen_logs := [] |}
              = {| seen_running := false;
                   seen_logs := logs (snd (run task t)) |} /\
              exists shown, final = seen' ++ shown
        end
    end.
Proof.
  intro Hs.
  exists (snd (bind (clear Exn)
                 (fun _ => bind (set_isRunning Exn true)
                             (fun _ => log Exn wallclock "Begin")) t)).
  unfold TaskTracker.run, bind, try_catch, template, clear, set_isRunning,
    log, error, now, writeLog, get_logs, set_logs, with_logs, notify, bind,
    logs.
  rewrite Hs. cbn.
  split; [rewrite <- app_assoc; reflexivity|]. split; [reflexivity|].
  match goal with |- context [task ?x] =>
    destruct (task x) as [[[]|e] t2] end;
    cbn; try destruct (to_string e) as [text|e']; cbn; try reflexivity;
    destruct (store t2) as [seen'|]; cbn; try reflexivity;
    eexists; (split; [reflexivity|]); rewrite ?last_last;
    (split; [reflexivity|]); eexists; rewrite <- ?app_assoc; reflexivity.
Qed.

End Scripts.

(** *** Concrete runs *)

Lemma run_publishes_witness :
  store used_tracker = Some [] /\
  exists final,
    store (snd (run js_to_string Z.of_nat
                  (warn_then_throw Z.of_nat ["low disk"%string] (Text "boom"))
                  used_tracker)) = Some final /\
    last final {| seen_running := true; seen_logs := [] |}
    = {| seen_running := false;
         seen_logs :=
           logs (snd (run js_to_string Z.of_nat
                        (warn_then_throw Z.of_nat ["low disk"%string]
                           (Text "boom")) used_tracker)) |}.
Proof.
  split; [reflexivity|].
  destruct (run_publishes js_to_string Z.of_nat
              (warn_then_throw Z.of_nat ["low disk"%string] (Text "boom"))
              used_tracker (seen := []) eq_refl) as (t1 & _ & _ & H).
  assert (Hd : fst (run js_to_string Z.of_nat
                      (warn_then_throw Z.of_nat ["low disk"%string]
                         (Text "boom")) used_tracker) = Done tt)
    by (vm_compute; reflexivity).
  rewrite Hd in H.
  destruct (store (snd (warn_then_throw Z.of_nat ["low disk"%string]
                          (Text "boom") t1))) as [seen'|].
  - destruct H as (final & H1 & H2 & _). exists final. split; assumption.
  - exfalso. revert H. vm_compute. discriminate.
Defined.

End TaskTrackerMore.

(** ** The console logger *)

Module ConsoleLogFacts.

Import ConsoleLog.

Section Sessions.

Variable Data : Type.

Local Abbreviation use := (use Data).

Lemma perform_flag (this : ConsoleLogger) (u : use) :
  debugEnabled (snd (perform this u)) = debugEnabled this || turns_on u.
Proof.
  destruct u as [[| | | |] data|]; cbn;
    rewrite ?orb_false_r, ?orb_true_r; reflexivity.
Qed.

Lemma perform_enabled (this : ConsoleLogger) (u : use) :
  debugEnabled this = true ->
  fst (perform this u) = requested [u].
Proof.
  intro H. destruct u as [[| | | |] data|]; cbn; rewrite ?H; reflexivity.
Qed.

Lemma perform_quiet (this : ConsoleLogger) (u : use) :
  debugEnabled this = false ->
  fst (perform this u) = filter is_loud (requested [u]).
Proof.
  intro H. destruct u as [[| | | |] data|]; cbn; rewrite ?H; reflexivity.
Qed.

Lemma session_cons (this : ConsoleLogger) (u : use) (us : list use) :
  session this (u :: us)
  = (fst (perform this u) ++ fst (session (snd (perform this u)) us),
     snd (session (snd (perform this u)) us)).
Proof.
  cbn [session]. destruct (perform this u) as [out this1]. cbn [fst snd].
  destruct (session this1 us). reflexivity.
Qed.

(** X12: over any sequence of uses of a [ConsoleLogger]: [error] and
    [warn] calls always reach the console; while debugging is off,
    [debug], [info] and [log] calls write nothing; once debugging is on,
    every call reaches the console, on the console method of the same
    name, with its arguments unchanged and in call order; [withDebug]
    turns debugging on and nothing turns it off again. *)
Theorem console_session (this : ConsoleLogger) (us : list use) :
  debugEnabled (snd (session this us))
  = debugEnabled this || existsb turns_on us /\
  (debugEnabled this = true -> fst (session this us) = requested us) /\
  (debugEnabled this = false -> existsb turns_on us = false ->
   fst (session this us) = filter is_loud (requested us)) /\
  (forall us',
     session this (us ++ us')
     = (fst (session this us) ++ fst (session (snd (session this us)) us'),
        snd (session (snd (session this us)) us'))).
Proof.
  revert this. induction us as [|u us IH]; intro this.
  - cbn. rewrite orb_false_r.
    repeat split; auto. intro us'. destruct (session this us'); reflexivity.
  - destruct (IH (snd (perform this u))) as (Hflag & Hon & Hoff & Happ).
    rewrite session_cons. cbn [fst snd existsb].
    split; [|split; [|split]].
    + rewrite Hflag, perform_flag, orb_assoc. reflexivity.
    + intro H. rewrite perform_enabled by exact H.
      rewrite Hon by (rewrite perform_flag, H; reflexivity).
      destruct u; reflexivity.
    + intros H Hnone. apply orb_false_iff in Hnone.
      destruct Hnone as [Hu Hus].
      rewrite perform_quiet by exact H.
      rewrite Hoff by (try rewrite perform_flag, H, Hu; auto).
      destruct u as [c data|]; [|discriminate Hu].
      cbn [requested filter app]. destruct (is_loud _); reflexivity.
    + intro us'. cbn [app]. rewrite session_cons, Happ. cbn [fst snd].
      rewrite app_assoc. reflexivity.
Qed.

End Sessions.

Lemma console_session_witness :
  debugEnabled new = false /\
  existsb turns_on [Call Debug ["a"%string]; Call Error ["b"%string]]
  = false /\
  fst (session new [Call Debug ["a"%string]; Call Error ["b"%string]])
  = [{| channel_of := Error; data_of := ["b"%string] |}].
Proof.
  split; [reflexivity|]. split; [reflexivity|].
  exact (proj1 (proj2 (proj2 (console_session new
           [Call Debug ["a"%string]; Call Error ["b"%string]])))
           eq_refl eq_refl).
Defined.

End ConsoleLogFacts.
